(** * Exception-based IPC speed test: a shallow embedding of [main.cpp]

    The program is a two-process benchmark.  Two instances negotiate a
    server and a client role through a named shared mapping, then run two
    rounds: in each round one side raises the structured exception
    [kExceptionCommsCode] ten thousand times while the other side, attached
    as a debugger, counts the exception debug events it is handed.

    The embedding has two layers.

    - Everything a process does on its own (raising exceptions, the
      debugger loop, the two round functions) is a function of a local
      state: the answers the operating system will give to the calls of
      this process, and the thread's last-error value.  Each function
      returns the Win32 calls and stream insertions it performed, in
      order, together with the way it completed.

    - [main] also touches the shared mapping, which the partner process
      reads and writes at the same time.  Its accesses to the kernel
      object are the atomic steps of a resumption ([Proc]), so that two
      copies of [main] can be run under any interleaving. *)

From Stdlib Require Import ZArith List String Ascii Bool Lia.
Import ListNotations.
Open Scope string_scope.
Open Scope list_scope.
Open Scope Z_scope.

Set Implicit Arguments.

(** ** Machine integers *)

(** [DWORD] is an unsigned 32-bit integer, [int] a signed one. *)
Definition DWORD := Z.
Definition INT_MAX : Z := 2 ^ 31 - 1.
Definition INT_MIN : Z := - 2 ^ 31.
Definition int_range (z : Z) : Prop := INT_MIN <= z <= INT_MAX.

(** Two's complement reduction of a mathematical integer to [int]; this is
    what [++count] computes on the compilers the program is built with. *)
Definition wrap_int (z : Z) : Z := (z + 2 ^ 31) mod 2 ^ 32 - 2 ^ 31.

(** Conversion to [ULONG_PTR], the unsigned integer of pointer width. *)
Definition to_ULONG_PTR (bits : Z) (z : Z) : Z := z mod 2 ^ bits.

(** ** Constants *)

(** Lines 15-21 of [main.cpp]. *)
Definition kSharedMappingName : string := "Global\UDCommMapping".
Definition kExceptionCommsCode : DWORD := 0x1337.
Definition kTestIterations : Z := 10000.

(** Values of the Windows SDK headers ([winbase.h], [winnt.h],
    [winerror.h], [minwinbase.h]) and of [<cstdlib>]; the headers are not
    part of the repository. *)
Definition EXCEPTION_DEBUG_EVENT : DWORD := 1.
Definition DBG_CONTINUE : DWORD := 0x00010002.
Definition INFINITE : DWORD := 0xFFFFFFFF.
Definition ERROR_SUCCESS : DWORD := 0.
Definition ERROR_ALREADY_EXISTS : DWORD := 183.
Definition EXCEPTION_EXECUTE_HANDLER : Z := 1.
Definition EXIT_SUCCESS : Z := 0.
Definition EXIT_FAILURE : Z := 1.

(** ** Data *)

(** Lines 23-26. *)
Record SharedData := mkShared {
  server_pid : DWORD;
  client_pid : DWORD
}.

Definition sizeof_SharedData : Z := 8.

(** A [std::string_view]: the address of its first byte and the
    characters it spans.  [size()] is the number of characters. *)
Record string_view := mkView {
  sv_data : Z;
  sv_text : string
}.

Definition sv_size (v : string_view) : Z := Z.of_nat (String.length (sv_text v)).

(** The part of [EXCEPTION_RECORD] and [DEBUG_EVENT] the program reads.
    [u_Exception] is the union [u] of the event read through its
    [Exception] member. *)
Record EXCEPTION_RECORD := mkRecord {
  ExceptionCode : DWORD;
  ExceptionFlags : DWORD;
  NumberParameters : DWORD;
  ExceptionInformation : list Z
}.

Record EXCEPTION_DEBUG_INFO := mkInfo {
  ExceptionRecord : EXCEPTION_RECORD;
  dwFirstChance : DWORD
}.

Record DEBUG_EVENT := mkEvent {
  dwDebugEventCode : DWORD;
  dwProcessId : DWORD;
  dwThreadId : DWORD;
  u_Exception : EXCEPTION_DEBUG_INFO
}.

(** What a call to [WaitForDebugEvent] returns: an event, or [FALSE] with
    the last-error value it leaves. *)
Inductive WaitResult :=
| WaitOk (event : DEBUG_EVENT)
| WaitFail (err : DWORD).

(** ** Observable actions *)

Inductive Stream := cout | cerr.

(** One operand of a chain of [<<].  The two floating-point values the
    program prints (elapsed seconds and messages per second) are kept
    symbolic. *)
Inductive Piece :=
| Str (s : string)
| Num (n : Z)
| ElapsedSeconds
| MessagesPerSecond.

Definition LF : Piece := Str (String (ascii_of_nat 10) EmptyString).

Inductive Field := F_server_pid | F_client_pid.

(** How [CreateFileMappingA] ended. *)
Inductive Created :=
| CreatedFresh
| OpenedExisting
| CreateFailed (err : DWORD).

Inductive Call :=
| Out (s : Stream) (msg : list Piece)
| CallRaiseException (code flags nargs : DWORD) (args : list Z)
| CallDebugActiveProcess (pid : DWORD) (ok : bool)
| CallWaitForDebugEvent (timeout : DWORD) (r : option WaitResult)
| CallContinueDebugEvent (pid tid status : DWORD)
| CallDebugActiveProcessStop (pid : DWORD) (ok : bool)
| CallSleep (seconds : Z)
| CallClockNow
| CallCreateFileMappingA (name : string) (size : Z) (r : Created)
| CallMapViewOfFile (size : Z) (ok : bool)
| CallUnmapViewOfFile
| CallCloseHandle
| Load (f : Field) (v : DWORD)
| Store (f : Field) (v : DWORD).

(** ** The environment of one process *)

(** What [MapViewOfFile] does: it fails with an error code, or it
    succeeds and either leaves the thread's last-error value alone
    ([None]) or overwrites it. *)
Inductive ViewOutcome :=
| ViewFails (err : DWORD)
| ViewOk (sets_last_error : option DWORD).

Record Env := mkEnv {
  ptr_bits : Z;                       (* width of a pointer *)
  own_pid : DWORD;                    (* GetCurrentProcessId *)
  literal_addr : string -> Z;         (* where each string literal lives *)
  create_error : option DWORD;        (* CreateFileMappingA fails with *)
  map_view : ViewOutcome;             (* MapViewOfFile *)
  attach_error : option DWORD;        (* DebugActiveProcess fails with *)
  detach_error : option DWORD         (* DebugActiveProcessStop fails with *)
}.

(** The state a process carries: the debug events the system will
    deliver, in order (after the last one [WaitForDebugEvent] blocks for
    ever), and the last-error value of the thread. *)
Record Local := mkLocal {
  waits : list WaitResult;
  last_error : DWORD
}.

(** ** Local computations *)

(** How a piece of code completes: it returns a value, it never returns
    (blocked in a wait without timeout), or a structured exception
    leaves it. *)
Inductive Outcome (A : Type) :=
| Returned (a : A)
| Blocked
| Unwound (rec : EXCEPTION_RECORD).

Arguments Blocked {A}.
Arguments Unwound {A} rec.

Record Res (A : Type) := mkRes {
  calls : list Call;
  val : Outcome A;
  post : Local
}.

Definition L (A : Type) : Type := Local -> Res A.

Definition ret {A} (a : A) : L A :=
  fun st => mkRes [] (Returned a) st.

Definition bind {A B} (m : L A) (f : A -> L B) : L B :=
  fun st =>
    let r := m st in
    match val r with
    | Returned a =>
        let r' := f a (post r) in
        mkRes (calls r ++ calls r') (val r') (post r')
    | Blocked => mkRes (calls r) Blocked (post r)
    | Unwound rec => mkRes (calls r) (Unwound rec) (post r)
    end.

Declare Scope L_scope.
Delimit Scope L_scope with L.
Notation "x <- m ;; k" := (bind m (fun x => k))
  (at level 61, m at next level, right associativity) : L_scope.
Notation "m ;; k" := (bind m (fun _ => k))
  (at level 61, right associativity) : L_scope.
Open Scope L_scope.

Definition emit (c : Call) : L unit :=
  fun st => mkRes [c] (Returned tt) st.

Definition print (s : Stream) (msg : list Piece) : L unit := emit (Out s msg).

Definition GetLastError : L DWORD :=
  fun st => mkRes [] (Returned (last_error st)) st.

Definition SetLastError (e : DWORD) : L unit :=
  fun st => mkRes [] (Returned tt) (mkLocal (waits st) e).

Definition sleep_for (seconds : Z) : L unit := emit (CallSleep seconds).
Definition clock_now : L unit := emit CallClockNow.

(** [RaiseException] records the call and starts unwinding with the
    record it built. *)
Definition RaiseException (code flags nargs : DWORD) (args : list Z) : L unit :=
  fun st =>
    mkRes [CallRaiseException code flags nargs args]
          (Unwound (mkRecord code flags nargs (firstn (Z.to_nat nargs) args)))
          st.

(** [__try { body } __except (filter) { handler }]: when an exception
    leaves [body] and the filter expression evaluates to
    [EXCEPTION_EXECUTE_HANDLER], the handler runs and execution goes on
    after the statement; with any other filter value the exception keeps
    travelling outwards. *)
Definition seh_try {A} (body : L A) (filter : Z) (handler : L A) : L A :=
  fun st =>
    let r := body st in
    match val r with
    | Unwound rec =>
        if filter =? EXCEPTION_EXECUTE_HANDLER then
          let r' := handler (post r) in
          mkRes (calls r ++ calls r') (val r') (post r')
        else r
    | _ => r
    end.

(** A [for (int i = 0; i < n; ++i) body] whose body does not read [i]. *)
Fixpoint repeat_L (n : nat) (body : L unit) : L unit :=
  match n with
  | O => ret tt
  | S n' => body ;; repeat_L n' body
  end.

(** ** [SendMessageException], lines 30-42 *)

Definition SendMessageException (env : Env) (message : string_view) : L unit :=
  let params :=
    [ to_ULONG_PTR (ptr_bits env) (sv_data message);
      to_ULONG_PTR (ptr_bits env) (sv_size message + 1) ] in
  seh_try (RaiseException kExceptionCommsCode 0 2 params)
          EXCEPTION_EXECUTE_HANDLER
          (ret tt).

(** ** [DebugPartnerProcess], lines 45-83 *)

Definition DebugActiveProcess (env : Env) (pid : DWORD) : L bool :=
  match attach_error env with
  | None => emit (CallDebugActiveProcess pid true) ;; ret true
  | Some e =>
      emit (CallDebugActiveProcess pid false) ;; SetLastError e ;; ret false
  end.

Definition DebugActiveProcessStop (env : Env) (pid : DWORD) : L bool :=
  match detach_error env with
  | None => emit (CallDebugActiveProcessStop pid true) ;; ret true
  | Some e =>
      emit (CallDebugActiveProcessStop pid false) ;; SetLastError e ;; ret false
  end.

(** Lines 59-65: the effect of one received event on [count]. *)
Definition count_event (count : Z) (event : DEBUG_EVENT) : Z :=
  if dwDebugEventCode event =? EXCEPTION_DEBUG_EVENT then
    let record := ExceptionRecord (u_Exception event) in
    if (ExceptionCode record =? kExceptionCommsCode)
       && (2 <=? NumberParameters record)
    then wrap_int (count + 1)
    else count
  else count.

(** How the [while] of line 57 stands after the events delivered so far. *)
Inductive LoopExit :=
| TargetReached     (* the condition [count < iterations] is false *)
| WaitFailed        (* left through the [break] of line 71 *)
| StillWaiting.     (* inside a [WaitForDebugEvent] that has not returned *)

Record LoopRun := mkLoop {
  loop_calls : list Call;
  loop_count : Z;
  loop_exit : LoopExit;
  loop_post : Local
}.

(** Lines 57-73.  Each turn of the loop consumes one answer of
    [WaitForDebugEvent]. *)
Fixpoint count_loop (role : string_view) (iterations count : Z)
         (ws : list WaitResult) (err : DWORD) {struct ws} : LoopRun :=
  if count <? iterations then
    match ws with
    | [] =>
        mkLoop [CallWaitForDebugEvent INFINITE None] count StillWaiting
               (mkLocal [] err)
    | WaitOk event :: ws' =>
        let count' := count_event count event in
        let r := count_loop role iterations count' ws' err in
        mkLoop (CallWaitForDebugEvent INFINITE (Some (WaitOk event))
                :: CallContinueDebugEvent (dwProcessId event)
                                          (dwThreadId event) DBG_CONTINUE
                :: loop_calls r)
               (loop_count r) (loop_exit r) (loop_post r)
    | WaitFail e :: ws' =>
        mkLoop [CallWaitForDebugEvent INFINITE (Some (WaitFail e));
                Out cerr [Str (sv_text role);
                          Str " debugger: wait failed (Error: ";
                          Num e; Str ")"; LF]]
               count WaitFailed (mkLocal ws' e)
    end
  else mkLoop [] count TargetReached (mkLocal ws err).

(** Lines 55-73 as a local computation: [count] starts at zero, and the
    value of [count] after the loop is returned. *)
Definition count_events (role : string_view) (iterations : Z) : L Z :=
  fun st =>
    let r := count_loop role iterations 0 (waits st) (last_error st) in
    mkRes (loop_calls r)
          (match loop_exit r with
           | StillWaiting => Blocked
           | _ => Returned (loop_count r)
           end)
          (loop_post r).

Definition DebugPartnerProcess (env : Env) (partner_pid : DWORD)
           (role : string_view) (iterations : Z) : L unit :=
  print cout [Str (sv_text role); Str " debugger: attaching to PID ";
              Num partner_pid; LF] ;;
  attached <- DebugActiveProcess env partner_pid ;;
  if negb attached then
    e <- GetLastError ;;
    print cerr [Str (sv_text role); Str " debugger: attach failed (Error: ";
                Num e; Str ")"; LF]
  else
    count_events role iterations ;;
    detached <- DebugActiveProcessStop env partner_pid ;;
    if negb detached then
      e <- GetLastError ;;
      print cerr [Str (sv_text role); Str " debugger: detach failed (Error: ";
                  Num e; Str ")"; LF]
    else
      print cout [Str (sv_text role); Str " debugger: detached from PID ";
                  Num partner_pid; LF].

(** ** The two rounds, lines 88-129 *)

Definition literal (env : Env) (s : string) : string_view :=
  mkView (literal_addr env s) s.

Definition RunSpeedTestRound (env : Env) (is_server : bool)
           (partner_pid : DWORD) : L unit :=
  if is_server then
    sleep_for 3 ;;
    print cout [Str "Round 1 (server sends, client debugs):"; LF] ;;
    clock_now ;;
    repeat_L (Z.to_nat kTestIterations)
             (SendMessageException env (literal env "hello, world!")) ;;
    clock_now ;;
    print cout [Str "Server: sent "; Num kTestIterations;
                Str " messages in "; ElapsedSeconds; Str "s (";
                MessagesPerSecond; Str " msg/s)"; LF]
  else
    print cout [Str "Round 1 (client debugs server):"; LF] ;;
    DebugPartnerProcess env partner_pid (literal env "Client") kTestIterations.

Definition RunSwapRoleRound (env : Env) (is_server : bool)
           (partner_pid : DWORD) : L unit :=
  if is_server then
    print cout [Str "Round 2 (server debugs client):"; LF] ;;
    DebugPartnerProcess env partner_pid (literal env "Server") kTestIterations
  else
    sleep_for 3 ;;
    print cout [Str "Round 2 (client sends, server debugs):"; LF] ;;
    clock_now ;;
    repeat_L (Z.to_nat kTestIterations)
             (SendMessageException env (literal env "hello, world!")) ;;
    clock_now ;;
    print cout [Str "Client: sent "; Num kTestIterations;
                Str " messages in "; ElapsedSeconds; Str "s (";
                MessagesPerSecond; Str " msg/s)"; LF].

(** ** The shared mapping and the steps that touch it *)

(** The kernel object named [kSharedMappingName]: whether it exists, and
    the two fields it holds. *)
Record Kernel := mkKernel {
  mapping_exists : bool;
  shared : SharedData
}.

Definition no_mapping : Kernel := mkKernel false (mkShared 0 0).

(** A process seen from the other one: it is finished, or its next action
    is one indivisible access to the kernel object, after which it goes
    on according to what the access returned. *)
Inductive Proc (A : Type) : Type :=
| Done (a : A)
| Atomic (X : Type) (op : Kernel -> X * Kernel) (k : X -> Proc A).

Arguments Atomic {A X} op k.

Fixpoint proc_bind {A B} (p : Proc A) (f : A -> Proc B) : Proc B :=
  match p with
  | Done a => f a
  | Atomic op k => Atomic op (fun x => proc_bind (k x) f)
  end.

(** [CreateFileMappingA] with a name: the object is created, zero filled,
    when it does not exist, and opened when it does. *)
Definition k_create (fails : option DWORD) (kern : Kernel) : Created * Kernel :=
  match fails with
  | Some e => (CreateFailed e, kern)
  | None =>
      if mapping_exists kern then (OpenedExisting, kern)
      else (CreatedFresh, mkKernel true (mkShared 0 0))
  end.

Definition k_load (f : Field) (kern : Kernel) : DWORD * Kernel :=
  (match f with
   | F_server_pid => server_pid (shared kern)
   | F_client_pid => client_pid (shared kern)
   end, kern).

Definition k_store (f : Field) (v : DWORD) (kern : Kernel) : unit * Kernel :=
  (tt, mkKernel (mapping_exists kern)
         (match f with
          | F_server_pid => mkShared v (client_pid (shared kern))
          | F_client_pid => mkShared (server_pid (shared kern)) v
          end)).

(** Computations of [main]: local state in, a resumption out. *)
Definition P (A : Type) : Type := Local -> Proc (Res A).

Definition prepend {A} (cs : list Call) (r : Res A) : Res A :=
  mkRes (cs ++ calls r) (val r) (post r).

Definition retP {A} (a : A) : P A :=
  fun st => Done (mkRes [] (Returned a) st).

Definition bindP {A B} (m : P A) (f : A -> P B) : P B :=
  fun st =>
    proc_bind (m st) (fun r =>
      match val r with
      | Returned a =>
          proc_bind (f a (post r)) (fun r' => Done (prepend (calls r) r'))
      | Blocked => Done (mkRes (calls r) Blocked (post r))
      | Unwound rec => Done (mkRes (calls r) (Unwound rec) (post r))
      end).

Definition lift {A} (m : L A) : P A := fun st => Done (m st).

Declare Scope P_scope.
Delimit Scope P_scope with P.
Notation "x <- m ;; k" := (bindP m (fun x => k))
  (at level 61, m at next level, right associativity) : P_scope.
Notation "m ;; k" := (bindP m (fun _ => k))
  (at level 61, right associativity) : P_scope.

Definition created_ok (c : Created) : bool :=
  match c with
  | CreateFailed _ => false
  | _ => true
  end.

Definition created_error (c : Created) : DWORD :=
  match c with
  | CreatedFresh => ERROR_SUCCESS
  | OpenedExisting => ERROR_ALREADY_EXISTS
  | CreateFailed e => e
  end.

(** The call of lines 138-140; the result is whether the handle is not
    null.  The call leaves [ERROR_ALREADY_EXISTS] as last error when it
    opened an existing object and [ERROR_SUCCESS] when it created one. *)
Definition CreateFileMappingA (env : Env) (name : string) (size : Z) : P bool :=
  fun st =>
    Atomic (k_create (create_error env)) (fun c =>
      Done (mkRes [CallCreateFileMappingA name size c]
                  (Returned (created_ok c))
                  (mkLocal (waits st) (created_error c)))).

(** The call of line 148; the result is whether the view is not null. *)
Definition MapViewOfFile (env : Env) (size : Z) : L bool :=
  match map_view env with
  | ViewFails e => emit (CallMapViewOfFile size false) ;; SetLastError e ;; ret false
  | ViewOk None => emit (CallMapViewOfFile size true) ;; ret true
  | ViewOk (Some e) => emit (CallMapViewOfFile size true) ;; SetLastError e ;; ret true
  end.

Definition UnmapViewOfFile : L unit := emit CallUnmapViewOfFile.
Definition CloseHandle : L unit := emit CallCloseHandle.
Definition GetCurrentProcessId (env : Env) : L DWORD := ret (own_pid env).

(** A read and a write of a field of [*shared]. *)
Definition load (f : Field) : P DWORD :=
  fun st => Atomic (k_load f) (fun v => Done (mkRes [Load f v] (Returned v) st)).

Definition store (f : Field) (v : DWORD) : P unit :=
  fun st => Atomic (k_store f v) (fun _ => Done (mkRes [Store f v] (Returned tt) st)).

(** [strcmp] keeps only the sign of the difference. *)
Definition strcmp (s1 s2 : string) : Z :=
  match String.compare s1 s2 with
  | Eq => 0
  | Lt => -1
  | Gt => 1
  end.

(** Lines 165-167: [for (int i = 0; i < 10 && shared->client_pid == 0; ++i)]
    with [remaining = 10 - i]. *)
Fixpoint poll_client (remaining : nat) : P unit :=
  match remaining with
  | O => retP tt
  | S n =>
      (v <- load F_client_pid ;;
       if v =? 0 then lift (sleep_for 1) ;; poll_client n
       else retP tt)%P
  end.

(** ** [main], lines 131-192 *)

(** Lines 160-180: what each role does with the mapped record.  The
    result is the partner's id, or [None] on the early return of
    line 173. *)
Definition negotiate (is_server : bool) (my_pid : DWORD) : P (option DWORD) :=
  (if is_server then
     lift (print cout [Str "Role: server (PID "; Num my_pid; Str ")"; LF]) ;;
     store F_server_pid my_pid ;;
     store F_client_pid 0 ;;
     poll_client 10 ;;
     partner_pid <- load F_client_pid ;;
     if partner_pid =? 0 then
       lift (print cerr [Str "Client did not join; exiting."; LF]) ;;
       lift UnmapViewOfFile ;;
       lift CloseHandle ;;
       retP None
     else retP (Some partner_pid)
   else
     lift (print cout [Str "Role: client (PID "; Num my_pid; Str ")"; LF]) ;;
     partner_pid <- load F_server_pid ;;
     store F_client_pid my_pid ;;
     retP (Some partner_pid))%P.

Definition main (env : Env) (argv : list string) : P Z :=
  (let argc := Z.of_nat (List.length argv) in
   if (argc <? 2) || negb (strcmp (nth 1 argv "") "speed" =? 0) then
     lift (print cout [Str "Usage: ExceptionCommsSpeedTest.exe speed"; LF]) ;;
     retP EXIT_SUCCESS
   else
     mapping <- CreateFileMappingA env kSharedMappingName sizeof_SharedData ;;
     if negb mapping then
       e <- lift GetLastError ;;
       lift (print cerr [Str "Error creating file mapping ("; Num e; Str ")"; LF]) ;;
       retP EXIT_FAILURE
     else
       view <- lift (MapViewOfFile env sizeof_SharedData) ;;
       if negb view then
         e <- lift GetLastError ;;
         lift (print cerr [Str "Error mapping view ("; Num e; Str ")"; LF]) ;;
         lift CloseHandle ;;
         retP EXIT_FAILURE
       else
         e <- lift GetLastError ;;
         let is_server := negb (e =? ERROR_ALREADY_EXISTS) in
         my_pid <- lift (GetCurrentProcessId env) ;;
         joined <- negotiate is_server my_pid ;;
         match joined with
         | None => retP EXIT_FAILURE
         | Some partner_pid =>
             lift (print cout [Str "Connected to PID "; Num partner_pid; LF; LF]) ;;
             lift (RunSpeedTestRound env is_server partner_pid) ;;
             lift (RunSwapRoleRound env is_server partner_pid) ;;
             lift UnmapViewOfFile ;;
             lift CloseHandle ;;
             lift (print cout [LF; Str "Speed test complete."; LF]) ;;
             retP EXIT_SUCCESS
         end)%P.

(** ** Running processes *)

(** One process, with everything else in the system acting on the kernel
    object between its steps: before the i-th access of the process the
    i-th function of [others] is applied (none when the list is
    exhausted). *)
Fixpoint run_env {A} (p : Proc A) (others : list (Kernel -> Kernel))
         (kern : Kernel) : A * Kernel :=
  match p with
  | Done a => (a, kern)
  | Atomic op k =>
      let kern1 := match others with
                   | [] => kern
                   | g :: _ => g kern
                   end in
      let xk := op kern1 in
      run_env (k (fst xk)) (tl others) (snd xk)
  end.

(** One step of a process. *)
Definition step {A} (p : Proc A) (kern : Kernel) : Proc A * Kernel :=
  match p with
  | Done _ => (p, kern)
  | Atomic op k => let xk := op kern in (k (fst xk), snd xk)
  end.

(** Two processes under a schedule: [true] lets the first one take a
    step, [false] the second. *)
Fixpoint run_pair {A B} (sched : list bool) (p : Proc A) (q : Proc B)
         (kern : Kernel) : Proc A * Proc B * Kernel :=
  match sched with
  | [] => (p, q, kern)
  | true :: s => let pk := step p kern in run_pair s (fst pk) q (snd pk)
  | false :: s => let qk := step q kern in run_pair s p (fst qk) (snd qk)
  end.

(** A whole run of the program by one process. *)
Definition run_main (env : Env) (argv : list string) (st : Local)
           (others : list (Kernel -> Kernel)) (kern : Kernel) : Res Z * Kernel :=
  run_env (main env argv st) others kern.

(** ** Vocabulary of the statements *)

(** The classification rule: an exception event with the agreed code and at
    least two parameters. *)
Definition is_sentinel_event (ev : DEBUG_EVENT) : Prop :=
  dwDebugEventCode ev = EXCEPTION_DEBUG_EVENT /\
  ExceptionCode (ExceptionRecord (u_Exception ev)) = kExceptionCommsCode /\
  2 <= NumberParameters (ExceptionRecord (u_Exception ev)).

(** The state of the loop of [DebugPartnerProcess] once the system has
    delivered the answers [ws] and nothing more. *)
Definition loop_after (role : string_view) (iterations : Z)
           (ws : list WaitResult) : LoopRun :=
  count_loop role iterations 0 ws 0.

(** A sequence of calls in which every wait that returned an event is
    followed at once by one [ContinueDebugEvent] for the process and
    thread of that event, and in which no other [ContinueDebugEvent]
    occurs. *)
Fixpoint acknowledged (t : list Call) : bool :=
  match t with
  | [] => true
  | CallWaitForDebugEvent _ (Some (WaitOk ev)) :: t' =>
      match t' with
      | CallContinueDebugEvent p th _ :: t'' =>
          (p =? dwProcessId ev) && (th =? dwThreadId ev) && acknowledged t''
      | _ => false
      end
  | CallContinueDebugEvent _ _ _ :: _ => false
  | _ :: t' => acknowledged t'
  end.

Definition is_failed_wait (c : Call) : Prop :=
  exists t e, c = CallWaitForDebugEvent t (Some (WaitFail e)).

Definition wait_failed_message (role : string_view) (e : DWORD) : Call :=
  Out cerr [Str (sv_text role); Str " debugger: wait failed (Error: ";
            Num e; Str ")"; LF].

(** The calls the loop makes for the events of [ws], when all of them are
    events. *)
Fixpoint event_calls (ws : list WaitResult) : list Call :=
  match ws with
  | [] => []
  | WaitOk ev :: ws' =>
      CallWaitForDebugEvent INFINITE (Some (WaitOk ev))
      :: CallContinueDebugEvent (dwProcessId ev) (dwThreadId ev) DBG_CONTINUE
      :: event_calls ws'
  | WaitFail _ :: ws' => event_calls ws'
  end.

(** The lines [DebugPartnerProcess] writes, and the calls with which it
    leaves the partner. *)
Definition attaching_message (role : string_view) (pid : DWORD) : Call :=
  Out cout [Str (sv_text role); Str " debugger: attaching to PID "; Num pid; LF].

Definition attach_failed_message (role : string_view) (e : DWORD) : Call :=
  Out cerr [Str (sv_text role); Str " debugger: attach failed (Error: ";
            Num e; Str ")"; LF].

Definition detach_calls (env : Env) (role : string_view) (pid : DWORD) : list Call :=
  match detach_error env with
  | None =>
      [CallDebugActiveProcessStop pid true;
       Out cout [Str (sv_text role); Str " debugger: detached from PID ";
                 Num pid; LF]]
  | Some e =>
      [CallDebugActiveProcessStop pid false;
       Out cerr [Str (sv_text role); Str " debugger: detach failed (Error: ";
                 Num e; Str ")"; LF]]
  end.

Definition is_wait (c : Call) : Prop :=
  exists t r, c = CallWaitForDebugEvent t r.

(** ** Vocabulary for [main] *)

(** The command line asks for the speed test. *)
Definition is_speed (argv : list string) : Prop :=
  (2 <= List.length argv)%nat /\ nth 1 argv "" = "speed".

(** The lines [main] writes. *)
Definition usage_line : Call :=
  Out cout [Str "Usage: ExceptionCommsSpeedTest.exe speed"; LF].

Definition create_failed_line (e : DWORD) : Call :=
  Out cerr [Str "Error creating file mapping ("; Num e; Str ")"; LF].

Definition view_failed_line (e : DWORD) : Call :=
  Out cerr [Str "Error mapping view ("; Num e; Str ")"; LF].

Definition role_line (is_server : bool) (pid : DWORD) : Call :=
  Out cout [Str (if is_server then "Role: server (PID " else "Role: client (PID ");
            Num pid; Str ")"; LF].

Definition no_client_line : Call :=
  Out cerr [Str "Client did not join; exiting."; LF].

Definition connected_line (partner : DWORD) : Call :=
  Out cout [Str "Connected to PID "; Num partner; LF; LF].

Definition complete_line : Call :=
  Out cout [LF; Str "Speed test complete."; LF].

(** Lines 182-191 of [main], which touch nothing shared. *)
Definition run_rounds (env : Env) (is_server : bool) (partner_pid : DWORD) : L Z :=
  emit (connected_line partner_pid) ;;
  RunSpeedTestRound env is_server partner_pid ;;
  RunSwapRoleRound env is_server partner_pid ;;
  UnmapViewOfFile ;;
  CloseHandle ;;
  emit complete_line ;;
  ret EXIT_SUCCESS.

(** The two calls with which a process that gets its view starts. *)
Definition setup_calls (c : Created) : list Call :=
  [CallCreateFileMappingA kSharedMappingName sizeof_SharedData c;
   CallMapViewOfFile sizeof_SharedData true].

(** The last-error value that line 156 reads, after a creation that ended
    as [c] and a successful [MapViewOfFile]. *)
Definition role_error (env : Env) (c : Created) : DWORD :=
  match map_view env with
  | ViewOk (Some e) => e
  | _ => created_error c
  end.

(** The calls of the polling loop of lines 165-167 with [n] turns left,
    when the values a read of a field may return are those of [R]. *)
Inductive polling (R : Field -> DWORD -> Prop) : nat -> list Call -> Prop :=
| polling_over : polling R 0 []
| polling_joined n v :
    v <> 0 -> R F_client_pid v -> polling R (S n) [Load F_client_pid v]
| polling_sleep n polls :
    R F_client_pid 0 -> polling R n polls ->
    polling R (S n) (Load F_client_pid 0 :: CallSleep 1 :: polls).

(** The ways a run of [main] with the argument [speed] can go, given how
    the creation of the mapping ended. *)
Inductive main_outcome (R : Field -> DWORD -> Prop) (env : Env) (st : Local)
          (c : Created) : Res Z -> Prop :=
| out_create_failed e :
    c = CreateFailed e ->
    main_outcome R env st c
      (mkRes [CallCreateFileMappingA kSharedMappingName sizeof_SharedData c;
              create_failed_line e]
             (Returned EXIT_FAILURE) (mkLocal (waits st) e))
| out_view_failed e :
    created_ok c = true -> map_view env = ViewFails e ->
    main_outcome R env st c
      (mkRes [CallCreateFileMappingA kSharedMappingName sizeof_SharedData c;
              CallMapViewOfFile sizeof_SharedData false;
              view_failed_line e; CallCloseHandle]
             (Returned EXIT_FAILURE) (mkLocal (waits st) e))
| out_no_client o polls :
    created_ok c = true -> map_view env = ViewOk o ->
    role_error env c <> ERROR_ALREADY_EXISTS ->
    polling R 10 polls -> R F_client_pid 0 ->
    main_outcome R env st c
      (mkRes (setup_calls c ++
              [role_line true (own_pid env);
               Store F_server_pid (own_pid env); Store F_client_pid 0] ++
              polls ++
              [Load F_client_pid 0; no_client_line;
               CallUnmapViewOfFile; CallCloseHandle])
             (Returned EXIT_FAILURE)
             (mkLocal (waits st) (role_error env c)))
| out_server o polls v :
    created_ok c = true -> map_view env = ViewOk o ->
    role_error env c <> ERROR_ALREADY_EXISTS ->
    polling R 10 polls -> R F_client_pid v -> v <> 0 ->
    main_outcome R env st c
      (prepend (setup_calls c ++
                [role_line true (own_pid env);
                 Store F_server_pid (own_pid env); Store F_client_pid 0] ++
                polls ++ [Load F_client_pid v])
               (run_rounds env true v (mkLocal (waits st) (role_error env c))))
| out_client o v :
    created_ok c = true -> map_view env = ViewOk o ->
    role_error env c = ERROR_ALREADY_EXISTS ->
    R F_server_pid v ->
    main_outcome R env st c
      (prepend (setup_calls c ++
                [role_line false (own_pid env);
                 Load F_server_pid v; Store F_client_pid (own_pid env)])
               (run_rounds env false v (mkLocal (waits st) (role_error env c)))).

(** ** A logic for resumptions *)

(** [safe I Q p]: whenever each access of [p] starts in a kernel state
    that satisfies [I], the access re-establishes [I], and the result of
    [p], if [p] finishes, satisfies [Q]. *)
Inductive safe {A} (I : Kernel -> Prop) (Q : A -> Prop) : Proc A -> Prop :=
| safe_done a : Q a -> safe I Q (Done a)
| safe_atomic X (op : Kernel -> X * Kernel) (k : X -> Proc A) :
    (forall kern, I kern -> I (snd (op kern))) ->
    (forall kern, I kern -> safe I Q (k (fst (op kern)))) ->
    safe I Q (Atomic op k).

Definition stable (I : Kernel -> Prop) (g : Kernel -> Kernel) : Prop :=
  forall kern, I kern -> I (g kern).

(** The values a read of a field can return in a state of [I]. *)
Definition readable (I : Kernel -> Prop) (f : Field) (v : DWORD) : Prop :=
  exists kern, I kern /\ fst (k_load f kern) = v.

(** The last value a sequence of calls has read from a field. *)
Definition same_field (f g : Field) : bool :=
  match f, g with
  | F_server_pid, F_server_pid => true
  | F_client_pid, F_client_pid => true
  | _, _ => false
  end.

Fixpoint last_load (f : Field) (t : list Call) : option DWORD :=
  match t with
  | [] => None
  | c :: t' =>
      match last_load f t' with
      | Some v => Some v
      | None =>
          match c with
          | Load g v => if same_field f g then Some v else None
          | _ => None
          end
      end
  end.

(** Calls that only the set-up and the negotiation make: accesses to the
    mapping, and lines with the layout of the role, connection and
    no-client lines. *)
Definition setup_call (c : Call) : bool :=
  match c with
  | Load _ _ | Store _ _ => true
  | CallCreateFileMappingA _ _ _ | CallMapViewOfFile _ _ => true
  | Out cout [Str _; Num _; Str _; Str _] => true
  | Out cerr [Str _; Str _] => true
  | _ => false
  end.

(** Calls that belong to a round: raising, debugging, timing, and the
    warm-up sleep of three seconds. *)
Definition round_call (c : Call) : bool :=
  match c with
  | CallRaiseException _ _ _ _ => true
  | CallDebugActiveProcess _ _ => true
  | CallWaitForDebugEvent _ _ => true
  | CallContinueDebugEvent _ _ _ => true
  | CallDebugActiveProcessStop _ _ => true
  | CallClockNow => true
  | CallSleep s => s =? 3
  | _ => false
  end.

(** ** Vocabulary for the rounds *)

(** The call [SendMessageException] makes for a message. *)
Definition raise_call (env : Env) (message : string_view) : Call :=
  CallRaiseException kExceptionCommsCode 0 2
    [to_ULONG_PTR (ptr_bits env) (sv_data message);
     to_ULONG_PTR (ptr_bits env) (sv_size message + 1)].

(** The calls of the sending side of a round: the warm-up, the banner,
    the timed loop and the report. *)
Definition send_calls (env : Env) (banner who : string) : list Call :=
  CallSleep 3 :: Out cout [Str banner; LF] :: CallClockNow ::
  repeat (raise_call env (literal env "hello, world!")) (Z.to_nat kTestIterations) ++
  [CallClockNow;
   Out cout [Str who; Num kTestIterations; Str " messages in ";
             ElapsedSeconds; Str "s ("; MessagesPerSecond; Str " msg/s)"; LF]].

Definition is_sleep (c : Call) : Prop := exists s, c = CallSleep s.

Definition sleepb (c : Call) : bool :=
  match c with
  | CallSleep _ => true
  | _ => false
  end.

(** The name under which a process counts: the server counts in round 2,
    the client in round 1. *)
Definition counting_role (env : Env) (is_server : bool) : string_view :=
  literal env (if is_server then "Server" else "Client").

(** The counting round of a process never ends: it attaches, and the
    events the system delivers neither bring the counter to the target nor
    end in a failed wait. *)
Definition never_returns (env : Env) (is_server : bool)
           (ws : list WaitResult) : Prop :=
  attach_error env = None /\
  loop_exit (loop_after (counting_role env is_server) kTestIterations ws)
  = StillWaiting.

(** A run in which the process took the server role, and one in which the
    last value it read from [client_pid] is zero. *)
Definition ran_as_server (env : Env) (r : Res Z) : Prop :=
  In (role_line true (own_pid env)) (calls r).

Definition saw_no_client (r : Res Z) : Prop :=
  last_load F_client_pid (calls r) = Some 0.

(** No constraint on the values read from the mapping. *)
Definition anything (f : Field) (v : DWORD) : Prop := True.

(** The local state with which a process enters the rounds. *)
Definition at_rounds (env : Env) (st : Local) (c : Created) : Local :=
  mkLocal (waits st) (role_error env c).

(** ** The exit status *)

(** The creation of the mapping or the mapping of the view fails. *)
Definition setup_fails (env : Env) : Prop :=
  create_error env <> None \/ exists e, map_view env = ViewFails e.

(** The conditions under which [main] reports a failure. *)
Definition fails (env : Env) (argv : list string) (r : Res Z) : Prop :=
  is_speed argv /\
  (setup_fails env \/ (ran_as_server env r /\ saw_no_client r)).

(** The conditions under which [main] never returns: it reaches the
    rounds, and its counting round stays in [WaitForDebugEvent]. *)
Definition hangs (env : Env) (argv : list string) (st : Local) (r : Res Z) : Prop :=
  is_speed argv /\ ~ setup_fails env /\
  ~ (ran_as_server env r /\ saw_no_client r) /\
  ((ran_as_server env r /\ never_returns env true (waits st)) \/
   (~ ran_as_server env r /\ never_returns env false (waits st))).

(** The exit status as the specification words it: failure exactly under
    the failure conditions, success for every other invocation. *)
Definition exit_status_claim (env : Env) (argv : list string) (st : Local)
           (others : list (Kernel -> Kernel)) (kern : Kernel) : Prop :=
  let r := fst (run_main env argv st others kern) in
  (val r = Returned EXIT_FAILURE <-> fails env argv r) /\
  (~ fails env argv r -> val r = Returned EXIT_SUCCESS).

(** What the counting side of a round does: stream insertions and calls of
    the debugging interface. *)
Definition debugger_call (c : Call) : bool :=
  match c with
  | Out _ _ => true
  | CallDebugActiveProcess _ _ => true
  | CallWaitForDebugEvent _ _ => true
  | CallContinueDebugEvent _ _ _ => true
  | CallDebugActiveProcessStop _ _ => true
  | _ => false
  end.

(** What the sending side of a round does: it sleeps, writes, reads the
    clock and raises exceptions. *)
Definition sender_call (c : Call) : bool :=
  match c with
  | Out _ _ => true
  | CallSleep _ => true
  | CallClockNow => true
  | CallRaiseException _ _ _ _ => true
  | _ => false
  end.


(** ** Vocabulary for the negotiation of two processes *)

(** [MapViewOfFile], when it succeeds, leaves the last-error value of the
    creation in place. *)
Definition leaves_last_error (env : Env) : Prop :=
  forall e, map_view env <> ViewOk (Some e).

(** The states of the mapping that a creator with id [s] and an opener
    with id [c] can produce. *)
Definition pair_invariant (s c : DWORD) (kern : Kernel) : Prop :=
  mapping_exists kern = true /\
  (server_pid (shared kern) = 0 \/ server_pid (shared kern) = s) /\
  (client_pid (shared kern) = 0 \/ client_pid (shared kern) = c).

(** A run that announced the connection to [partner]. *)
Definition connected (r : Res Z) (partner : DWORD) : Prop :=
  In (connected_line partner) (calls r).

(** What the calls of a process show when it negotiated as server, and as
    client, and took [partner] for the id of the other process. *)
Definition negotiated_as_server (env : Env) (r : Res Z) (partner : DWORD) : Prop :=
  In (CallCreateFileMappingA kSharedMappingName sizeof_SharedData CreatedFresh)
     (calls r) /\
  In (role_line true (own_pid env)) (calls r) /\
  In (Store F_server_pid (own_pid env)) (calls r) /\
  In (Store F_client_pid 0) (calls r) /\
  In (Load F_client_pid partner) (calls r).

Definition negotiated_as_client (env : Env) (r : Res Z) (partner : DWORD) : Prop :=
  In (CallCreateFileMappingA kSharedMappingName sizeof_SharedData OpenedExisting)
     (calls r) /\
  In (role_line false (own_pid env)) (calls r) /\
  In (Load F_server_pid partner) (calls r) /\
  In (Store F_client_pid (own_pid env)) (calls r).

(** The negotiation as the specification words it: whenever two processes
    started without a mapping both announce a connection, the one that
    created the mapping is the server, the other the client, and each
    took the id of the other for its partner. *)
Definition negotiation_claim : Prop :=
  forall envA envB argvA argvB stA stB sched rA rB kern pA pB,
    leaves_last_error envA -> leaves_last_error envB ->
    run_pair sched (main envA argvA stA) (main envB argvB stB) no_mapping
    = (Done rA, Done rB, kern) ->
    connected rA pA -> connected rB pB ->
    (negotiated_as_server envA rA pA /\ negotiated_as_client envB rB pB /\
     pA = own_pid envB /\ pB = own_pid envA) \/
    (negotiated_as_server envB rB pB /\ negotiated_as_client envA rA pA /\
     pB = own_pid envA /\ pA = own_pid envB).

(** The result of a finished process. *)
Definition is_done {A} (p : Proc A) : bool :=
  match p with
  | Done _ => true
  | Atomic _ _ => false
  end.

Definition result_of {A} (p : Proc A) (default : A) : A :=
  match p with
  | Done a => a
  | Atomic _ _ => default
  end.

(** Two processes with ids 100 and 200 on a 64-bit system, every call of
    which succeeds, and two interleavings of their negotiation: one in
    which the second process opens the mapping after the first has filled
    it in, and one in which it reads [server_pid] before the first has
    written it. *)
Definition first_env : Env :=
  mkEnv 64 100 (fun _ => 4096) None (ViewOk None) None None.

Definition second_env : Env :=
  mkEnv 64 200 (fun _ => 4096) None (ViewOk None) None None.

Definition speed_argv : list string := ["test.exe"; "speed"].

Definition no_events : Local := mkLocal [] 0.

Definition orderly_schedule : list bool :=
  [true; true; true; false; false; false; true; true].

Definition early_read_schedule : list bool :=
  [true; false; false; true; true; false; true; true].

Definition pair_run (sched : list bool) : Proc (Res Z) * Proc (Res Z) * Kernel :=
  run_pair sched (main first_env speed_argv no_events)
           (main second_env speed_argv no_events) no_mapping.

Definition first_result (sched : list bool) : Res Z :=
  result_of (fst (fst (pair_run sched))) (mkRes [] Blocked no_events).

Definition second_result (sched : list bool) : Res Z :=
  result_of (snd (fst (pair_run sched))) (mkRes [] Blocked no_events).

(** ** Vocabulary for further properties of the counting loop *)

(** The test of lines 59-62 as a boolean. *)
Definition sentinelb (ev : DEBUG_EVENT) : bool :=
  (dwDebugEventCode ev =? EXCEPTION_DEBUG_EVENT)
  && (ExceptionCode (ExceptionRecord (u_Exception ev)) =? kExceptionCommsCode)
  && (2 <=? NumberParameters (ExceptionRecord (u_Exception ev))).

(** The number of events that satisfy the test among the answers that
    come before the first failed wait. *)
Fixpoint sentinels_before_failure (ws : list WaitResult) : Z :=
  match ws with
  | [] => 0
  | WaitOk ev :: ws' =>
      (if sentinelb ev then 1 else 0) + sentinels_before_failure ws'
  | WaitFail _ :: _ => 0
  end.

Definition all_events (ws : list WaitResult) : Prop :=
  Forall (fun w => exists ev, w = WaitOk ev) ws.

(** Two answers that the loop cannot tell apart: two events with the same
    event code, exception code and number of parameters, or two failed
    waits. *)
Definition alike (w w' : WaitResult) : Prop :=
  match w, w' with
  | WaitOk ev, WaitOk ev' =>
      dwDebugEventCode ev = dwDebugEventCode ev' /\
      ExceptionCode (ExceptionRecord (u_Exception ev)) =
      ExceptionCode (ExceptionRecord (u_Exception ev')) /\
      NumberParameters (ExceptionRecord (u_Exception ev)) =
      NumberParameters (ExceptionRecord (u_Exception ev'))
  | WaitFail _, WaitFail _ => True
  | _, _ => False
  end.

Definition stopb (c : Call) : bool :=
  match c with
  | CallDebugActiveProcessStop _ _ => true
  | _ => false
  end.

(** The calls the loop of [DebugPartnerProcess] can make. *)
Definition loop_call (c : Call) : bool :=
  match c with
  | CallWaitForDebugEvent _ _ => true
  | CallContinueDebugEvent _ _ _ => true
  | Out cerr _ => true
  | _ => false
  end.

(** The debug event that a debugger attached to process [pid] is handed
    for a call of [RaiseException] made by thread [tid] of that process:
    a first-chance exception event that carries the record of the call. *)
Definition raised_event (pid tid : DWORD) (c : Call) : option DEBUG_EVENT :=
  match c with
  | CallRaiseException code flags n args =>
      Some (mkEvent EXCEPTION_DEBUG_EVENT pid tid
              (mkInfo (mkRecord code flags n (firstn (Z.to_nat n) args)) 1))
  | _ => None
  end.

Fixpoint raised_events (pid tid : DWORD) (cs : list Call) : list WaitResult :=
  match cs with
  | [] => []
  | c :: cs' =>
      match raised_event pid tid c with
      | Some ev => WaitOk ev :: raised_events pid tid cs'
      | None => raised_events pid tid cs'
      end
  end.

(** ** Vocabulary for further properties of [main] *)

Definition closeb (c : Call) : bool :=
  match c with
  | CallCloseHandle => true
  | _ => false
  end.

Definition unmapb (c : Call) : bool :=
  match c with
  | CallUnmapViewOfFile => true
  | _ => false
  end.

Definition storeb (c : Call) : bool :=
  match c with
  | Store _ _ => true
  | _ => false
  end.

(** A call that neither releases the mapping nor writes to it. *)
Definition keeps_mapping (c : Call) : Prop :=
  closeb c = false /\ unmapb c = false /\ storeb c = false.

(** The calls of a server that polls ten times without seeing a client. *)
Definition ten_empty_polls : list Call :=
  List.concat (List.repeat [Load F_client_pid 0; CallSleep 1] 10).

(** The mapping holds zero in [client_pid]. *)
Definition no_client_yet (kern : Kernel) : Prop :=
  client_pid (shared kern) = 0.

(** ** Vocabulary for a failed attach in [main] *)

(** What [DebugPartnerProcess] does when the attach fails with [e]. *)
Definition failed_attach_calls (role : string_view) (pid e : DWORD) : list Call :=
  [attaching_message role pid; CallDebugActiveProcess pid false;
   attach_failed_message role e].

(** Lines 187-190 of [main]. *)
Definition closing_calls : list Call :=
  [CallUnmapViewOfFile; CallCloseHandle; complete_line].

(** Lines 182-190 for a client whose attach in round 1 fails with [e]:
    round 2 follows in full. *)
Definition client_rounds_attach_failed (env : Env) (partner e : DWORD)
  : list Call :=
  connected_line partner ::
  Out cout [Str "Round 1 (client debugs server):"; LF] ::
  failed_attach_calls (literal env "Client") partner e ++
  send_calls env "Round 2 (client sends, server debugs):" "Client: sent " ++
  closing_calls.

(** Lines 182-190 for a server whose attach in round 2 fails with [e]. *)
Definition server_rounds_attach_failed (env : Env) (partner e : DWORD)
  : list Call :=
  connected_line partner ::
  send_calls env "Round 1 (server sends, client debugs):" "Server: sent " ++
  Out cout [Str "Round 2 (server debugs client):"; LF] ::
  failed_attach_calls (literal env "Server") partner e ++
  closing_calls.

(** A mapping that a server with id 200 has created and filled in. *)
Definition joined_mapping : Kernel := mkKernel true (mkShared 200 0).

(** * Properties *)

(** ** Arithmetic of [int] *)

Lemma wrap_int_range (z : Z) : int_range (wrap_int z).
Proof.
  unfold int_range, wrap_int, INT_MIN, INT_MAX.
  pose proof (Z.mod_pos_bound (z + 2 ^ 31) (2 ^ 32) ltac:(lia)). lia.
Qed.

Lemma wrap_int_small (z : Z) : int_range z -> wrap_int z = z.
Proof.
  unfold int_range, wrap_int, INT_MIN, INT_MAX. intros H.
  rewrite Z.mod_small; lia.
Qed.

(** ** The classification of one event *)

Lemma count_event_range c ev : int_range c -> int_range (count_event c ev).
Proof.
  intros H. unfold count_event.
  destruct (_ =? _); [destruct (_ && _)|]; auto using wrap_int_range.
Qed.

Lemma count_event_sentinel c ev :
  is_sentinel_event ev -> count_event c ev = wrap_int (c + 1).
Proof.
  intros (Hk & Hc & Hn). unfold count_event.
  rewrite Hk, Hc, Z.eqb_refl. cbn [andb].
  replace (2 <=? _) with true by (symmetry; apply Z.leb_le; exact Hn).
  rewrite Z.eqb_refl. reflexivity.
Qed.

Lemma count_event_other c ev :
  ~ is_sentinel_event ev -> count_event c ev = c.
Proof.
  intros H. unfold count_event.
  destruct (dwDebugEventCode ev =? _) eqn:Hk; [|reflexivity].
  destruct (ExceptionCode _ =? _) eqn:Hc; [|reflexivity].
  destruct (2 <=? _) eqn:Hn; [|reflexivity].
  exfalso. apply H. repeat split.
  - now apply Z.eqb_eq.
  - now apply Z.eqb_eq.
  - now apply Z.leb_le.
Qed.

Lemma count_event_step c ev iterations :
  int_range c -> c < iterations -> iterations <= INT_MAX ->
  (is_sentinel_event ev -> count_event c ev = c + 1) /\
  (~ is_sentinel_event ev -> count_event c ev = c).
Proof.
  intros Hc Hlt Hmax. split; intros H.
  - rewrite count_event_sentinel by assumption.
    apply wrap_int_small. unfold int_range in *. lia.
  - now apply count_event_other.
Qed.

(** ** The loop, one turn at a time *)

Lemma count_loop_done role it c ws err :
  ~ c < it ->
  count_loop role it c ws err = mkLoop [] c TargetReached (mkLocal ws err).
Proof.
  intros H. destruct ws as [|[ev|e] ws]; cbn;
    (replace (c <? it) with false by (symmetry; apply Z.ltb_ge; lia));
    reflexivity.
Qed.

Lemma count_loop_empty role it c err :
  c < it ->
  count_loop role it c [] err =
  mkLoop [CallWaitForDebugEvent INFINITE None] c StillWaiting (mkLocal [] err).
Proof.
  intros H. cbn.
  replace (c <? it) with true by (symmetry; apply Z.ltb_lt; lia). reflexivity.
Qed.

Lemma count_loop_event role it c ev ws err :
  c < it ->
  count_loop role it c (WaitOk ev :: ws) err =
  let r := count_loop role it (count_event c ev) ws err in
  mkLoop (CallWaitForDebugEvent INFINITE (Some (WaitOk ev))
          :: CallContinueDebugEvent (dwProcessId ev) (dwThreadId ev) DBG_CONTINUE
          :: loop_calls r)
         (loop_count r) (loop_exit r) (loop_post r).
Proof.
  intros H. cbn [count_loop].
  replace (c <? it) with true by (symmetry; apply Z.ltb_lt; lia). reflexivity.
Qed.

Lemma count_loop_fail role it c e ws err :
  c < it ->
  count_loop role it c (WaitFail e :: ws) err =
  mkLoop [CallWaitForDebugEvent INFINITE (Some (WaitFail e));
          wait_failed_message role e]
         c WaitFailed (mkLocal ws e).
Proof.
  intros H. cbn [count_loop].
  replace (c <? it) with true by (symmetry; apply Z.ltb_lt; lia). reflexivity.
Qed.

(** Receiving one more event when the loop is waiting. *)
Lemma count_loop_snoc role it err pre : forall c ev,
  loop_exit (count_loop role it c pre err) = StillWaiting ->
  loop_count (count_loop role it c (pre ++ [WaitOk ev]) err) =
  count_event (loop_count (count_loop role it c pre err)) ev /\
  loop_count (count_loop role it c pre err) < it.
Proof.
  induction pre as [|[e|e] pre IH]; intros c ev Hw.
  - destruct (Z.lt_ge_cases c it) as [Hlt|Hge].
    + cbn [app]. rewrite count_loop_event by assumption.
      rewrite (count_loop_empty role err Hlt).
      split; [|assumption].
      destruct (Z.lt_ge_cases (count_event c ev) it).
      * rewrite count_loop_empty by assumption. reflexivity.
      * rewrite count_loop_done by lia. reflexivity.
    + rewrite count_loop_done in Hw by lia. discriminate.
  - destruct (Z.lt_ge_cases c it) as [Hlt|Hge].
    + cbn [app]. rewrite !count_loop_event in * by assumption.
      cbn in *. now apply IH.
    + rewrite count_loop_done in Hw by lia. discriminate.
  - destruct (Z.lt_ge_cases c it) as [Hlt|Hge].
    + rewrite count_loop_fail in Hw by assumption. discriminate.
    + rewrite count_loop_done in Hw by lia. discriminate.
Qed.

Lemma count_loop_count_range role it err ws : forall c,
  int_range c -> int_range (loop_count (count_loop role it c ws err)).
Proof.
  induction ws as [|[e|e] ws IH]; intros c Hc;
    destruct (Z.lt_ge_cases c it) as [Hlt|Hge];
    rewrite ?count_loop_done by lia;
    rewrite ?count_loop_empty, ?count_loop_event, ?count_loop_fail by assumption;
    cbn; auto using count_event_range.
Qed.

(** C1: when the loop is waiting and the system delivers one more event,
    the counter grows by one if and only if that event is an exception
    event with code 0x1337 and at least two parameters, and keeps its
    value for every other event; the events delivered before are
    arbitrary. *)
Theorem counter_counts_exactly_sentinel_events
        (role : string_view) (iterations : Z) (pre : list WaitResult)
        (ev : DEBUG_EVENT) :
  iterations <= INT_MAX ->
  loop_exit (loop_after role iterations pre) = StillWaiting ->
  let before := loop_count (loop_after role iterations pre) in
  let after := loop_count (loop_after role iterations (pre ++ [WaitOk ev])) in
  (after = before + 1 <-> is_sentinel_event ev) /\
  (~ is_sentinel_event ev -> after = before).
Proof.
  intros Hmax Hw before after.
  destruct (count_loop_snoc role iterations 0 pre 0 ev Hw) as [Hafter Hlt].
  fold (loop_after role iterations (pre ++ [WaitOk ev])) in Hafter.
  fold (loop_after role iterations pre) in Hafter, Hlt.
  fold before in Hafter, Hlt. fold after in Hafter.
  assert (Hr : int_range before).
  { apply count_loop_count_range. unfold int_range, INT_MIN, INT_MAX. lia. }
  destruct (count_event_step ev Hr Hlt Hmax) as [Hyes Hno].
  split.
  - split.
    + intros Heq.
      destruct (Z.eq_dec (dwDebugEventCode ev) EXCEPTION_DEBUG_EVENT) as [Hk|Hk];
      [destruct (Z.eq_dec (ExceptionCode (ExceptionRecord (u_Exception ev)))
                          kExceptionCommsCode) as [Hc|Hc];
       [destruct (Z_le_dec 2 (NumberParameters (ExceptionRecord (u_Exception ev))))
          as [Hn|Hn]|]|].
      * repeat split; assumption.
      * rewrite Hno in Hafter by (intros (_ & _ & ?); contradiction). lia.
      * rewrite Hno in Hafter by (intros (_ & ? & _); contradiction). lia.
      * rewrite Hno in Hafter by (intros (? & _ & _); contradiction). lia.
    + intros Hs. rewrite Hafter. now apply Hyes.
  - intros Hs. rewrite Hafter. now apply Hno.
Qed.

Lemma counter_counts_exactly_sentinel_events_witness :
  let role := mkView 0 "Client" in
  let other := mkEvent 3 10 11 (mkInfo (mkRecord 0 0 0 []) 1) in
  let ev := mkEvent 1 10 11 (mkInfo (mkRecord 0x1337 0 2 [4096; 14]) 1) in
  2 <= INT_MAX /\
  loop_exit (loop_after role 2 [WaitOk other]) = StillWaiting /\
  ((loop_count (loop_after role 2 ([WaitOk other] ++ [WaitOk ev])) =
    loop_count (loop_after role 2 [WaitOk other]) + 1 <-> is_sentinel_event ev) /\
   (~ is_sentinel_event ev ->
    loop_count (loop_after role 2 ([WaitOk other] ++ [WaitOk ev])) =
    loop_count (loop_after role 2 [WaitOk other]))).
Proof.
  intros role other ev.
  split; [unfold INT_MAX; lia|].
  split; [reflexivity|].
  apply (@counter_counts_exactly_sentinel_events role 2 [WaitOk other] ev).
  - unfold INT_MAX; lia.
  - reflexivity.
Defined.

Lemma is_sentinel_event_dec ev : {is_sentinel_event ev} + {~ is_sentinel_event ev}.
Proof.
  unfold is_sentinel_event.
  destruct (Z.eq_dec (dwDebugEventCode ev) EXCEPTION_DEBUG_EVENT);
    [|right; tauto].
  destruct (Z.eq_dec (ExceptionCode (ExceptionRecord (u_Exception ev)))
                     kExceptionCommsCode); [|right; tauto].
  destruct (Z_le_dec 2 (NumberParameters (ExceptionRecord (u_Exception ev))));
    [left|right]; tauto.
Qed.

Lemma count_event_bounds c ev it :
  int_range c -> c < it -> it <= INT_MAX ->
  c <= count_event c ev <= c + 1.
Proof.
  intros Hc Hlt Hmax.
  destruct (count_event_step ev Hc Hlt Hmax) as [Hyes Hno].
  destruct (is_sentinel_event_dec ev) as [H|H]; [rewrite Hyes|rewrite Hno];
    auto; lia.
Qed.

Ltac loop_simpl :=
  cbv zeta; cbn [loop_count loop_exit loop_calls loop_post].

Lemma count_loop_nil_count role it c err :
  loop_count (count_loop role it c [] err) = c.
Proof.
  destruct (Z.lt_ge_cases c it).
  - now rewrite count_loop_empty.
  - now rewrite count_loop_done by lia.
Qed.

Lemma count_loop_snoc_bounds role it err pre : forall c w,
  int_range c -> it <= INT_MAX ->
  loop_count (count_loop role it c pre err)
  <= loop_count (count_loop role it c (pre ++ [w]) err)
  <= loop_count (count_loop role it c pre err) + 1.
Proof.
  induction pre as [|x pre IH]; intros c w Hc Hmax;
    (destruct (Z.lt_ge_cases c it) as [Hlt|Hge];
     [|rewrite !count_loop_done by lia; loop_simpl; lia]).
  - rewrite count_loop_nil_count. cbn [app]. destruct w as [ev|e].
    + rewrite count_loop_event by assumption. loop_simpl.
      rewrite count_loop_nil_count. now apply count_event_bounds with (it := it).
    + rewrite count_loop_fail by assumption. loop_simpl. lia.
  - cbn [app]. destruct x as [ev|e].
    + rewrite !count_loop_event by assumption. loop_simpl.
      apply IH; auto using count_event_range.
    + rewrite !count_loop_fail by assumption. loop_simpl. lia.
Qed.

Lemma count_loop_within role it err ws : forall c,
  it <= INT_MAX -> 0 <= c <= it ->
  0 <= loop_count (count_loop role it c ws err) <= it /\
  (loop_exit (count_loop role it c ws err) = TargetReached ->
   loop_count (count_loop role it c ws err) = it).
Proof.
  induction ws as [|[ev|e] ws IH]; intros c Hmax Hc;
    (destruct (Z.lt_ge_cases c it) as [Hlt|Hge];
     [|rewrite !count_loop_done by lia; loop_simpl; split; [lia|intros _; lia]]).
  - rewrite count_loop_empty by assumption. loop_simpl. split; [lia|discriminate].
  - rewrite count_loop_event by assumption. loop_simpl. apply IH; [assumption|].
    assert (Hr : int_range c) by (unfold int_range, INT_MIN, INT_MAX in *; lia).
    pose proof (count_event_bounds ev Hr Hlt Hmax). lia.
  - rewrite count_loop_fail by assumption. loop_simpl. split; [lia|discriminate].
Qed.

(** C10: for a target between zero and [INT_MAX], the counter is zero
    before any event, each further answer of the system leaves it
    unchanged or adds one, it stays between zero and the target, and it
    equals the target when the loop is left through its condition. *)
Theorem counter_bounded_and_monotone (role : string_view) (iterations : Z) :
  0 <= iterations <= INT_MAX ->
  loop_count (loop_after role iterations []) = 0 /\
  (forall pre w,
      loop_count (loop_after role iterations pre)
      <= loop_count (loop_after role iterations (pre ++ [w]))
      <= loop_count (loop_after role iterations pre) + 1) /\
  (forall ws, 0 <= loop_count (loop_after role iterations ws) <= iterations) /\
  (forall ws, loop_exit (loop_after role iterations ws) = TargetReached ->
              loop_count (loop_after role iterations ws) = iterations).
Proof.
  intros Hit. unfold loop_after.
  assert (H0 : int_range 0) by (unfold int_range, INT_MIN, INT_MAX; lia).
  split; [apply count_loop_nil_count|].
  split; [intros pre w; apply count_loop_snoc_bounds; [exact H0|lia]|].
  split; intros ws; apply count_loop_within; lia.
Qed.

Lemma counter_bounded_and_monotone_witness :
  let role := mkView 0 "Server" in
  0 <= 3 <= INT_MAX /\
  (loop_count (loop_after role 3 []) = 0 /\
   (forall pre w,
       loop_count (loop_after role 3 pre)
       <= loop_count (loop_after role 3 (pre ++ [w]))
       <= loop_count (loop_after role 3 pre) + 1) /\
   (forall ws, 0 <= loop_count (loop_after role 3 ws) <= 3) /\
   (forall ws, loop_exit (loop_after role 3 ws) = TargetReached ->
               loop_count (loop_after role 3 ws) = 3)).
Proof.
  intros role.
  split; [unfold INT_MAX; lia|].
  apply (@counter_bounded_and_monotone role 3). unfold INT_MAX; lia.
Defined.

(** ** Leaving the loop *)

Lemma event_calls_no_failure ws : ~ Exists is_failed_wait (event_calls ws).
Proof.
  induction ws as [|[ev|e] ws IH]; loop_simpl; intros H; auto.
  - inversion H.
  - inversion H as [? ? (t & e & Hx)|? ? H1]; subst; [discriminate|].
    inversion H1 as [? ? (t & e & Hx)|? ? H2]; subst; [discriminate|auto].
Qed.

Lemma count_loop_exits role it err ws : forall c,
  let r := count_loop role it c ws err in
  match loop_exit r with
  | StillWaiting => loop_count r < it /\ ~ Exists is_failed_wait (loop_calls r)
  | TargetReached => it <= loop_count r /\ ~ Exists is_failed_wait (loop_calls r)
  | WaitFailed => loop_count r < it /\ Exists is_failed_wait (loop_calls r)
  end.
Proof.
  induction ws as [|[ev|e] ws IH]; intros c;
    (destruct (Z.lt_ge_cases c it) as [Hlt|Hge];
     [|cbv zeta; rewrite !count_loop_done by lia; loop_simpl; split;
       [lia|intros H; inversion H]]).
  - cbv zeta. rewrite count_loop_empty by assumption. loop_simpl. split; [lia|].
    intros H. inversion H as [? ? (t & e & Hx)|? ? H1]; subst;
      [discriminate|inversion H1].
  - cbv zeta. rewrite count_loop_event by assumption. loop_simpl.
    specialize (IH (count_event c ev)). cbv zeta in IH.
    destruct (loop_exit _); destruct IH as [Hc Hx]; (split; [assumption|]).
    + intros H. inversion H as [? ? (t & e & Hy)|? ? H1]; subst; [discriminate|].
      inversion H1 as [? ? (t & e & Hy)|? ? H2]; subst; [discriminate|auto].
    + now do 2 apply Exists_cons_tl.
    + intros H. inversion H as [? ? (t & e & Hy)|? ? H1]; subst; [discriminate|].
      inversion H1 as [? ? (t & e & Hy)|? ? H2]; subst; [discriminate|auto].
  - cbv zeta. rewrite count_loop_fail by assumption. loop_simpl. split; [lia|].
    apply Exists_cons_hd. now exists INFINITE, e.
Qed.

Lemma count_loop_fail_after role it err e rest pre : forall c,
  loop_exit (count_loop role it c pre err) = StillWaiting ->
  count_loop role it c (pre ++ WaitFail e :: rest) err =
  mkLoop (event_calls pre ++
          [CallWaitForDebugEvent INFINITE (Some (WaitFail e));
           wait_failed_message role e])
         (loop_count (count_loop role it c pre err))
         WaitFailed (mkLocal rest e).
Proof.
  induction pre as [|[ev|e'] pre IH]; intros c Hw;
    (destruct (Z.lt_ge_cases c it) as [Hlt|Hge];
     [|rewrite count_loop_done in Hw by lia; discriminate]).
  - cbn [app event_calls]. rewrite count_loop_fail, count_loop_nil_count by assumption.
    reflexivity.
  - cbn [app event_calls]. rewrite !count_loop_event in * by assumption.
    cbv zeta in Hw; cbn [loop_exit] in Hw. cbv zeta. rewrite (IH _ Hw). reflexivity.
  - rewrite count_loop_fail in Hw by assumption. discriminate.
Qed.

(** C5: the loop has been left exactly when the counter has reached the
    target or a wait has failed.  It is left through its condition exactly
    when the counter has reached the target, and through [break] exactly
    when a wait failed.  A wait that fails while the loop is waiting is
    followed by the message on the error stream and by nothing else: the
    counter keeps the value it had, and the answers that come after the
    failure are not consumed. *)
Theorem loop_ends_on_target_or_wait_failure
        (role : string_view) (iterations : Z) (ws : list WaitResult) :
  let r := loop_after role iterations ws in
  (loop_exit r <> StillWaiting <->
   (iterations <= loop_count r \/ Exists is_failed_wait (loop_calls r))) /\
  (loop_exit r = TargetReached <-> iterations <= loop_count r) /\
  (loop_exit r = WaitFailed <-> Exists is_failed_wait (loop_calls r)) /\
  (forall pre e rest,
      ws = pre ++ WaitFail e :: rest ->
      loop_exit (loop_after role iterations pre) = StillWaiting ->
      r = mkLoop (event_calls pre ++
                  [CallWaitForDebugEvent INFINITE (Some (WaitFail e));
                   wait_failed_message role e])
                 (loop_count (loop_after role iterations pre))
                 WaitFailed (mkLocal rest e)).
Proof.
  intros r. unfold r, loop_after.
  pose proof (count_loop_exits role iterations 0 ws 0) as H. cbv zeta in H.
  repeat split.
  - intros Hne. destruct (loop_exit _); destruct H; auto. contradiction.
  - intros [Hc|Hx] Hw; rewrite Hw in H; destruct H; [lia|contradiction].
  - intros He. rewrite He in H. tauto.
  - intros Hc. destruct (loop_exit _); destruct H; auto; lia.
  - intros He. rewrite He in H. tauto.
  - intros Hx. destruct (loop_exit _); destruct H; auto; contradiction.
  - intros pre e rest -> Hw. now apply count_loop_fail_after.
Qed.

Lemma loop_ends_on_target_or_wait_failure_witness :
  let role := mkView 0 "Client" in
  let ev := mkEvent 1 10 11 (mkInfo (mkRecord 0x1337 0 2 [4096; 14]) 1) in
  let ws := [WaitOk ev; WaitFail 5; WaitOk ev] in
  loop_after role 3 ws =
  mkLoop (event_calls [WaitOk ev] ++
          [CallWaitForDebugEvent INFINITE (Some (WaitFail 5));
           wait_failed_message role 5])
         (loop_count (loop_after role 3 [WaitOk ev]))
         WaitFailed (mkLocal [WaitOk ev] 5).
Proof.
  intros role ev ws.
  apply (proj2 (proj2 (proj2
           (@loop_ends_on_target_or_wait_failure role 3 ws)))); reflexivity.
Defined.

(** ** Acknowledging events *)

Lemma acknowledged_app_bounded (n : nat) : forall l1 l2,
  (List.length l1 <= n)%nat ->
  acknowledged l1 = true -> acknowledged l2 = true ->
  acknowledged (l1 ++ l2) = true.
Proof.
  induction n as [|n IH]; intros l1 l2 Hn H1 H2.
  - destruct l1; [assumption|cbn in Hn; lia].
  - destruct l1 as [|c l1]; [assumption|]. cbn in Hn.
    destruct c; cbn [app acknowledged] in *;
      try (apply IH; [lia|assumption|assumption]); try discriminate.
    destruct r as [[ev|e]|]; try (apply IH; [lia|assumption|assumption]).
    destruct l1 as [|c l1]; [discriminate|].
    destruct c; try discriminate. cbn [app] in *.
    apply andb_true_iff in H1 as [H1 H3]. rewrite H1. cbn [andb].
    apply IH; [cbn in Hn; lia|assumption|assumption].
Qed.

Lemma acknowledged_app l1 l2 :
  acknowledged l1 = true -> acknowledged l2 = true ->
  acknowledged (l1 ++ l2) = true.
Proof. apply acknowledged_app_bounded with (n := List.length l1). lia. Qed.

Lemma count_loop_acknowledged role it err ws : forall c,
  acknowledged (loop_calls (count_loop role it c ws err)) = true.
Proof.
  induction ws as [|[ev|e] ws IH]; intros c;
    (destruct (Z.lt_ge_cases c it) as [Hlt|Hge];
     [|rewrite count_loop_done by lia; reflexivity]).
  - rewrite count_loop_empty by assumption. reflexivity.
  - rewrite count_loop_event by assumption. loop_simpl.
    cbn [acknowledged]. rewrite !Z.eqb_refl. apply IH.
  - rewrite count_loop_fail by assumption. reflexivity.
Qed.

(** What [DebugPartnerProcess] does once it is attached. *)
Lemma DebugPartnerProcess_attached env pid role it st :
  attach_error env = None ->
  let lr := count_loop role it 0 (waits st) (last_error st) in
  calls (DebugPartnerProcess env pid role it st) =
    attaching_message role pid :: CallDebugActiveProcess pid true ::
    loop_calls lr ++
    match loop_exit lr with
    | StillWaiting => []
    | _ => detach_calls env role pid
    end /\
  val (DebugPartnerProcess env pid role it st) =
    match loop_exit lr with
    | StillWaiting => Blocked
    | _ => Returned tt
    end.
Proof.
  intros Ha lr.
  unfold DebugPartnerProcess, bind, print, emit, DebugActiveProcess,
    DebugActiveProcessStop, count_events, GetLastError, SetLastError, detach_calls.
  rewrite Ha. cbn. fold lr.
  destruct (loop_exit lr); cbn; rewrite ?app_nil_r; auto;
    destruct (detach_error env); cbn; auto.
Qed.

Lemma DebugPartnerProcess_not_attached env pid role it st e :
  attach_error env = Some e ->
  DebugPartnerProcess env pid role it st =
  mkRes [attaching_message role pid; CallDebugActiveProcess pid false;
         attach_failed_message role e]
        (Returned tt) (mkLocal (waits st) e).
Proof.
  intros Ha.
  unfold DebugPartnerProcess, bind, print, emit, DebugActiveProcess,
    GetLastError, SetLastError.
  rewrite Ha. reflexivity.
Qed.

(** C2: in the calls of the counting loop, and in those of the whole of
    [DebugPartnerProcess], every wait that returned an event is followed
    at once by one [ContinueDebugEvent] for the process and thread of that
    event, whether the event was counted or not, and no other
    [ContinueDebugEvent] is made; so exactly one acknowledgement lies
    between a received event and the next wait. *)
Theorem every_event_is_acknowledged
        (env : Env) (pid : DWORD) (role : string_view) (iterations : Z)
        (ws : list WaitResult) (st : Local) :
  acknowledged (loop_calls (loop_after role iterations ws)) = true /\
  acknowledged (calls (DebugPartnerProcess env pid role iterations st)) = true.
Proof.
  split; [apply count_loop_acknowledged|].
  destruct (attach_error env) as [e|] eqn:Ha.
  - rewrite (@DebugPartnerProcess_not_attached env pid role iterations st e Ha).
    reflexivity.
  - destruct (@DebugPartnerProcess_attached env pid role iterations st Ha) as [-> _].
    cbn [acknowledged attaching_message].
    apply acknowledged_app; [apply count_loop_acknowledged|].
    destruct (loop_exit _); try reflexivity;
      unfold detach_calls; destruct (detach_error env); reflexivity.
Qed.

(** ** The sender *)

(** C4: a call of [SendMessageException] makes one call of
    [RaiseException] with code 0x1337, no flags and exactly two
    arguments, the address of the payload and its length plus one for the
    terminator; the exception that leaves the guarded block carries these
    two parameters, the handler takes it, and the call returns to its
    caller with the local state unchanged. *)
Theorem sender_raises_two_parameters_and_returns
        (env : Env) (message : string_view) (st : Local) :
  0 <= sv_data message < 2 ^ ptr_bits env ->
  sv_size message + 1 < 2 ^ ptr_bits env ->
  let params := [sv_data message; sv_size message + 1] in
  SendMessageException env message st =
    mkRes [CallRaiseException kExceptionCommsCode 0 2 params] (Returned tt) st /\
  val (RaiseException kExceptionCommsCode 0 2 params st) =
    Unwound (mkRecord kExceptionCommsCode 0 2 params).
Proof.
  intros Hd Hs params. split; [|reflexivity].
  unfold SendMessageException, seh_try, RaiseException, ret, to_ULONG_PTR.
  cbn. rewrite !Z.mod_small; [reflexivity| |assumption].
  unfold sv_size in *. lia.
Qed.

Lemma sender_raises_two_parameters_and_returns_witness :
  let env := mkEnv 64 100 (fun _ => 4096) None (ViewOk None) None None in
  let message := mkView 4096 "hello, world!" in
  let st := mkLocal [] 0 in
  0 <= sv_data message < 2 ^ ptr_bits env /\
  sv_size message + 1 < 2 ^ ptr_bits env /\
  (SendMessageException env message st =
     mkRes [CallRaiseException kExceptionCommsCode 0 2 [4096; 14]]
           (Returned tt) st /\
   val (RaiseException kExceptionCommsCode 0 2 [4096; 14] st) =
     Unwound (mkRecord kExceptionCommsCode 0 2 [4096; 14])).
Proof.
  intros env message st.
  split; [cbn; lia|]. split; [cbn; lia|].
  apply (@sender_raises_two_parameters_and_returns env message st); cbn; lia.
Defined.

(** ** Reasoning about resumptions *)

Lemma safe_mono {A} (I : Kernel -> Prop) (Q Q' : A -> Prop) p :
  (forall a, Q a -> Q' a) -> safe I Q p -> safe I Q' p.
Proof.
  intros HQ H. induction H as [a Ha|X op k Hop Hk IH].
  - apply safe_done. auto.
  - apply safe_atomic; auto.
Qed.

Lemma safe_bind {A B} (I : Kernel -> Prop) (N : A -> Prop) (Q : B -> Prop)
      (p : Proc A) (f : A -> Proc B) :
  safe I N p -> (forall a, N a -> safe I Q (f a)) -> safe I Q (proc_bind p f).
Proof.
  intros H Hf. induction H as [a Ha|X op k Hop Hk IH]; cbn.
  - auto.
  - apply safe_atomic; auto.
Qed.

Lemma step_safe {A} (I : Kernel -> Prop) (Q : A -> Prop) p kern :
  safe I Q p -> I kern ->
  safe I Q (fst (step p kern)) /\ I (snd (step p kern)).
Proof.
  intros H HI. destruct H as [a Ha|X op k Hop Hk]; cbn.
  - split; [now apply safe_done|assumption].
  - split; auto.
Qed.

Lemma run_env_safe {A} (I : Kernel -> Prop) (Q : A -> Prop) p :
  safe I Q p ->
  forall others kern,
    Forall (stable I) others -> I kern ->
    Q (fst (run_env p others kern)) /\ I (snd (run_env p others kern)).
Proof.
  intros H. induction H as [a Ha|X op k Hop Hk IH]; intros others kern Ho HI; cbn.
  - auto.
  - apply IH.
    + destruct others as [|g others]; [assumption|].
      inversion Ho; subst. auto.
    + destruct others as [|g others]; [constructor|].
      now inversion Ho.
    + apply Hop. destruct others as [|g others]; [assumption|].
      inversion Ho; subst. auto.
Qed.

Lemma run_pair_safe {A B} (I : Kernel -> Prop) (Q1 : A -> Prop) (Q2 : B -> Prop)
      sched : forall p q kern,
  safe I Q1 p -> safe I Q2 q -> I kern ->
  safe I Q1 (fst (fst (run_pair sched p q kern))) /\
  safe I Q2 (snd (fst (run_pair sched p q kern))) /\
  I (snd (run_pair sched p q kern)).
Proof.
  induction sched as [|[|] sched IH]; intros p q kern Hp Hq HI; cbn.
  - auto.
  - destruct (step_safe kern Hp HI). now apply IH.
  - destruct (step_safe kern Hq HI). now apply IH.
Qed.

Lemma safe_done_inv {A} (I : Kernel -> Prop) (Q : A -> Prop) a :
  safe I Q (Done a) -> Q a.
Proof. intros H. now inversion H. Qed.

(** A finished process stays as it is. *)
Lemma run_pair_done_left {A B} sched : forall (a : A) (q : Proc B) kern,
  fst (fst (run_pair sched (Done a) q kern)) = Done a.
Proof.
  induction sched as [|[|] sched IH]; intros a q kern; cbn; auto.
Qed.

Lemma run_pair_done_right {A B} sched : forall (p : Proc A) (b : B) kern,
  snd (fst (run_pair sched p (Done b) kern)) = Done b.
Proof.
  induction sched as [|[|] sched IH]; intros p b kern; cbn; auto.
Qed.

(** ** The command line *)

Lemma string_compare_refl s : String.compare s s = Eq.
Proof.
  induction s as [|a s IH]; [reflexivity|]. cbn.
  unfold Ascii.compare. now rewrite N.compare_refl.
Qed.

Lemma strcmp_zero s1 s2 : strcmp s1 s2 = 0 <-> s1 = s2.
Proof.
  unfold strcmp. split.
  - destruct (String.compare s1 s2) eqn:H; try discriminate.
    intros _. now apply String.compare_eq_iff.
  - intros ->. now rewrite string_compare_refl.
Qed.

Lemma usage_test argv :
  (Z.of_nat (List.length argv) <? 2)
  || negb (strcmp (nth 1 argv "") "speed" =? 0) = false <-> is_speed argv.
Proof.
  unfold is_speed. rewrite orb_false_iff, negb_false_iff, Z.ltb_ge, Z.eqb_eq.
  rewrite strcmp_zero. split; intros [H1 H2]; split; auto; lia.
Qed.

Lemma is_speed_dec argv : {is_speed argv} + {~ is_speed argv}.
Proof.
  destruct ((Z.of_nat (List.length argv) <? 2)
            || negb (strcmp (nth 1 argv "") "speed" =? 0)) eqn:H.
  - right. intros Hs. apply usage_test in Hs. congruence.
  - left. now apply usage_test.
Qed.

(** ** [main], path by path *)

Lemma main_usage env argv st :
  ~ is_speed argv ->
  main env argv st = Done (mkRes [usage_line] (Returned EXIT_SUCCESS) st).
Proof.
  intros H. unfold main.
  destruct (_ || _) eqn:Hc; [reflexivity|].
  apply usage_test in Hc. contradiction.
Qed.

Lemma main_tail env is_server partner st :
  (lift (print cout [Str "Connected to PID "; Num partner; LF; LF]) ;;
   lift (RunSpeedTestRound env is_server partner) ;;
   lift (RunSwapRoleRound env is_server partner) ;;
   lift UnmapViewOfFile ;;
   lift CloseHandle ;;
   lift (print cout [LF; Str "Speed test complete."; LF]) ;;
   retP EXIT_SUCCESS)%P st
  = Done (run_rounds env is_server partner st).
Proof.
  unfold run_rounds, bindP, bind, lift, retP, ret, print, emit,
    UnmapViewOfFile, CloseHandle, connected_line, complete_line, prepend.
  cbn [proc_bind calls val post].
  destruct (val (RunSpeedTestRound env is_server partner st)); cbn;
    try reflexivity.
  destruct (val (RunSwapRoleRound env is_server partner _)); cbn;
    reflexivity.
Qed.

(** Rules for the computations of [main]. *)
Lemma safe_bindP {A B} (I : Kernel -> Prop) (N : Res A -> Prop)
      (Q : Res B -> Prop) (m : P A) (f : A -> P B) st :
  safe I N (m st) ->
  (forall r, N r ->
     match val r with
     | Returned a => safe I (fun r' => Q (prepend (calls r) r')) (f a (post r))
     | Blocked => Q (mkRes (calls r) Blocked (post r))
     | Unwound rec => Q (mkRes (calls r) (Unwound rec) (post r))
     end) ->
  safe I Q (bindP m f st).
Proof.
  intros Hm Hf. unfold bindP. eapply safe_bind; [exact Hm|].
  intros r Hr. specialize (Hf r Hr). destruct (val r).
  - eapply safe_bind; [exact Hf|]. intros r' Hr'. now apply safe_done.
  - now apply safe_done.
  - now apply safe_done.
Qed.

Lemma safe_lift {A} (I : Kernel -> Prop) (m : L A) st :
  safe I (fun r => r = m st) (lift m st).
Proof. now apply safe_done. Qed.

Lemma safe_store (I : Kernel -> Prop) f v st :
  stable I (fun kern => snd (k_store f v kern)) ->
  safe I (fun r => r = mkRes [Store f v] (Returned tt) st) (store f v st).
Proof.
  intros Hs. apply safe_atomic; [exact Hs|]. intros kern _. now apply safe_done.
Qed.

Lemma safe_load (I : Kernel -> Prop) (R : Field -> DWORD -> Prop) f st :
  (forall f kern, I kern -> R f (fst (k_load f kern))) ->
  safe I (fun r => exists v, R f v /\ r = mkRes [Load f v] (Returned v) st)
       (load f st).
Proof.
  intros HR. apply safe_atomic; [intros kern HI; exact HI|].
  intros kern HI. apply safe_done. eauto.
Qed.

Ltac after_lift :=
  eapply safe_bindP; [apply safe_lift|];
  intros ? ->; cbn [val calls post print emit sleep_for UnmapViewOfFile
                    CloseHandle GetLastError GetCurrentProcessId ret].

Lemma poll_client_safe (I : Kernel -> Prop) (R : Field -> DWORD -> Prop) :
  (forall f kern, I kern -> R f (fst (k_load f kern))) ->
  forall n st,
    safe I (fun r => exists polls,
                polling R n polls /\ r = mkRes polls (Returned tt) st)
         (poll_client n st).
Proof.
  intros HR. induction n as [|n IH]; intros st; cbn [poll_client].
  - apply safe_done. exists []. split; [constructor|reflexivity].
  - eapply safe_bindP; [apply (@safe_load I R _ st HR)|].
    intros r (v & Hv & ->). cbn [val calls post].
    destruct (v =? 0) eqn:Hz.
    + apply Z.eqb_eq in Hz. subst v. after_lift.
      eapply safe_mono; [|apply IH].
      intros r (polls & Hp & ->).
      exists (Load F_client_pid 0 :: CallSleep 1 :: polls).
      split; [now constructor|reflexivity].
    + apply Z.eqb_neq in Hz. apply safe_done.
      exists [Load F_client_pid v]. split; [now constructor|reflexivity].
Qed.

Lemma negotiate_server_safe (I : Kernel -> Prop) (R : Field -> DWORD -> Prop)
      pid st :
  (forall f kern, I kern -> R f (fst (k_load f kern))) ->
  stable I (fun kern => snd (k_store F_server_pid pid kern)) ->
  stable I (fun kern => snd (k_store F_client_pid 0 kern)) ->
  safe I (fun r => exists polls v,
              polling R 10 polls /\ R F_client_pid v /\
              r = mkRes ([role_line true pid; Store F_server_pid pid;
                          Store F_client_pid 0] ++ polls ++
                         Load F_client_pid v ::
                         (if v =? 0
                          then [no_client_line; CallUnmapViewOfFile; CallCloseHandle]
                          else []))
                        (Returned (if v =? 0 then None else Some v)) st)
       (negotiate true pid st).
Proof.
  intros HR Hs1 Hs2. unfold negotiate.
  after_lift.
  eapply safe_bindP; [apply (@safe_store I _ _ st Hs1)|]. intros ? ->. cbn [val calls post].
  eapply safe_bindP; [apply (@safe_store I _ _ st Hs2)|]. intros ? ->. cbn [val calls post].
  eapply safe_bindP; [apply (@poll_client_safe I R HR 10 st)|].
  intros ? (polls & Hp & ->). cbn [val calls post].
  eapply safe_bindP; [apply (@safe_load I R _ st HR)|].
  intros ? (v & Hv & ->). cbn [val calls post].
  destruct (v =? 0) eqn:Hz.
  - do 3 after_lift. apply safe_done. exists polls, v. rewrite Hz.
    repeat split; assumption.
  - apply safe_done. exists polls, v. rewrite Hz.
    repeat split; assumption.
Qed.

Lemma negotiate_client_safe (I : Kernel -> Prop) (R : Field -> DWORD -> Prop)
      pid st :
  (forall f kern, I kern -> R f (fst (k_load f kern))) ->
  stable I (fun kern => snd (k_store F_client_pid pid kern)) ->
  safe I (fun r => exists v,
              R F_server_pid v /\
              r = mkRes [role_line false pid; Load F_server_pid v;
                         Store F_client_pid pid]
                        (Returned (Some v)) st)
       (negotiate false pid st).
Proof.
  intros HR Hs. unfold negotiate.
  after_lift.
  eapply safe_bindP; [apply (@safe_load I R _ st HR)|].
  intros ? (v & Hv & ->). cbn [val calls post].
  eapply safe_bindP; [apply (@safe_store I _ _ st Hs)|]. intros ? ->. cbn [val calls post].
  apply safe_done. exists v. split; [assumption|reflexivity].
Qed.

(** The first access of [main] is the creation of the mapping; what
    follows it is described by [main_outcome]. *)
Lemma main_after_create (I : Kernel -> Prop) (R : Field -> DWORD -> Prop)
      env argv st kern :
  is_speed argv ->
  (forall f kern, I kern -> R f (fst (k_load f kern))) ->
  (created_ok (fst (k_create (create_error env) kern)) = true ->
   role_error env (fst (k_create (create_error env) kern)) <> ERROR_ALREADY_EXISTS ->
   stable I (fun kern => snd (k_store F_server_pid (own_pid env) kern)) /\
   stable I (fun kern => snd (k_store F_client_pid 0 kern))) ->
  (created_ok (fst (k_create (create_error env) kern)) = true ->
   role_error env (fst (k_create (create_error env) kern)) = ERROR_ALREADY_EXISTS ->
   stable I (fun kern => snd (k_store F_client_pid (own_pid env) kern))) ->
  safe I (main_outcome R env st (fst (k_create (create_error env) kern)))
       (fst (step (main env argv st) kern)).
Proof.
  intros Hsp HR Hserver Hclient. unfold main.
  rewrite (proj2 (usage_test argv) Hsp).
  unfold bindP at 1, CreateFileMappingA.
  cbn [proc_bind step fst snd val calls post].
  set (c := fst (k_create (create_error env) kern)) in *.
  eapply safe_bind; [|intros r' Hr'; apply safe_done; exact Hr'].
  destruct (created_ok c) eqn:Hok; cbn [negb].
  - (* the handle is not null *)
    after_lift. unfold MapViewOfFile.
    destruct (map_view env) as [e|o] eqn:Hview.
    + cbn. apply safe_done.
      now apply out_view_failed.
    + assert (Hcalls : forall w, (match o with
                        | None => emit (CallMapViewOfFile sizeof_SharedData true) ;; ret true
                        | Some e => emit (CallMapViewOfFile sizeof_SharedData true) ;;
                                    SetLastError e ;; ret true
                        end) (mkLocal w (created_error c))
                      = mkRes [CallMapViewOfFile sizeof_SharedData true]
                              (Returned true)
                              (mkLocal w (role_error env c))).
      { intros w. unfold role_error. rewrite Hview. destruct o; reflexivity. }
      rewrite Hcalls. cbn [val calls post negb].
      do 2 after_lift. cbn [last_error].
      destruct (role_error env c =? ERROR_ALREADY_EXISTS) eqn:Hrl; cbn [negb].
      * (* client *)
        apply Z.eqb_eq in Hrl.
        eapply safe_bindP;
          [apply (@negotiate_client_safe I R (own_pid env) _ HR (Hclient eq_refl Hrl))|].
        intros ? (v & Hv & ->). cbn [val calls post].
        rewrite main_tail. apply safe_done.
        pose proof (@out_client R env st c o v Hok Hview Hrl Hv) as Hout.
        revert Hout. generalize (run_rounds env false v
                                  (mkLocal (waits st) (role_error env c))).
        intros rr Hout.
        unfold prepend, setup_calls in *. cbn [calls val post app] in *.
        exact Hout.
      * (* server *)
        apply Z.eqb_neq in Hrl. destruct (Hserver eq_refl Hrl) as [Hs1 Hs2].
        eapply safe_bindP;
          [apply (@negotiate_server_safe I R (own_pid env) _ HR Hs1 Hs2)|].
        intros ? (polls & v & Hp & Hv & ->). cbn [val calls post].
        destruct (v =? 0) eqn:Hz.
        -- apply Z.eqb_eq in Hz. subst v. apply safe_done.
           pose proof (@out_no_client R env st c o polls Hok Hview Hrl Hp Hv)
             as Hout.
           unfold prepend, setup_calls in *. cbn [calls val post app] in *.
           rewrite app_nil_r. exact Hout.
        -- apply Z.eqb_neq in Hz. rewrite main_tail. apply safe_done.
           pose proof (@out_server R env st c o polls v Hok Hview Hrl Hp Hv Hz)
             as Hout.
           revert Hout. generalize (run_rounds env true v
                                     (mkLocal (waits st) (role_error env c))).
           intros rr Hout.
           unfold prepend, setup_calls in *. cbn [calls val post app] in *.
           rewrite <- !app_assoc in *. exact Hout.
  - (* the creation failed *)
    do 2 after_lift. apply safe_done.
    destruct c as [| |e]; try discriminate.
    now apply out_create_failed.
Qed.

(** ** The rounds *)

Lemma SendMessageException_calls env message st :
  SendMessageException env message st =
  mkRes [raise_call env message] (Returned tt) st.
Proof. reflexivity. Qed.

Lemma repeat_send env message st n :
  repeat_L n (SendMessageException env message) st =
  mkRes (repeat (raise_call env message) n) (Returned tt) st.
Proof.
  induction n as [|n IH]; [reflexivity|].
  cbn [repeat_L repeat]. unfold bind.
  rewrite SendMessageException_calls. cbn [val calls post].
  rewrite IH. reflexivity.
Qed.

Lemma send_round env banner who n st :
  (sleep_for 3 ;;
   print cout [Str banner; LF] ;;
   clock_now ;;
   repeat_L n (SendMessageException env (literal env "hello, world!")) ;;
   clock_now ;;
   print cout [Str who; Num kTestIterations; Str " messages in ";
               ElapsedSeconds; Str "s ("; MessagesPerSecond; Str " msg/s)"; LF])
    st =
  mkRes (CallSleep 3 :: Out cout [Str banner; LF] :: CallClockNow ::
         repeat (raise_call env (literal env "hello, world!")) n ++
         [CallClockNow;
          Out cout [Str who; Num kTestIterations; Str " messages in ";
                    ElapsedSeconds; Str "s ("; MessagesPerSecond;
                    Str " msg/s)"; LF]])
        (Returned tt) st.
Proof.
  unfold bind, sleep_for, print, clock_now, emit.
  cbn [val calls post]. rewrite repeat_send. reflexivity.
Qed.

Lemma round1_server env partner st :
  RunSpeedTestRound env true partner st =
  mkRes (send_calls env "Round 1 (server sends, client debugs):" "Server: sent ")
        (Returned tt) st.
Proof.
  exact (send_round env "Round 1 (server sends, client debugs):"
                    "Server: sent " (Z.to_nat kTestIterations) st).
Qed.

Lemma round2_client env partner st :
  RunSwapRoleRound env false partner st =
  mkRes (send_calls env "Round 2 (client sends, server debugs):" "Client: sent ")
        (Returned tt) st.
Proof.
  exact (send_round env "Round 2 (client sends, server debugs):"
                    "Client: sent " (Z.to_nat kTestIterations) st).
Qed.

Lemma round1_client env partner st :
  RunSpeedTestRound env false partner st =
  prepend [Out cout [Str "Round 1 (client debugs server):"; LF]]
          (DebugPartnerProcess env partner (literal env "Client")
                               kTestIterations st).
Proof. reflexivity. Qed.

Lemma round2_server env partner st :
  RunSwapRoleRound env true partner st =
  prepend [Out cout [Str "Round 2 (server debugs client):"; LF]]
          (DebugPartnerProcess env partner (literal env "Server")
                               kTestIterations st).
Proof. reflexivity. Qed.

(** The two rounds in sequence. *)
Lemma run_rounds_sequence env is_server partner st :
  let r1 := RunSpeedTestRound env is_server partner st in
  let r2 := RunSwapRoleRound env is_server partner (post r1) in
  run_rounds env is_server partner st =
  match val r1 with
  | Returned _ =>
      match val r2 with
      | Returned _ =>
          mkRes (connected_line partner :: calls r1 ++ calls r2 ++
                 [CallUnmapViewOfFile; CallCloseHandle; complete_line])
                (Returned EXIT_SUCCESS) (post r2)
      | Blocked => mkRes (connected_line partner :: calls r1 ++ calls r2)
                         Blocked (post r2)
      | Unwound rec => mkRes (connected_line partner :: calls r1 ++ calls r2)
                             (Unwound rec) (post r2)
      end
  | Blocked => mkRes (connected_line partner :: calls r1) Blocked (post r1)
  | Unwound rec => mkRes (connected_line partner :: calls r1) (Unwound rec) (post r1)
  end.
Proof.
  intros r1 r2. unfold run_rounds, bind, emit, UnmapViewOfFile, CloseHandle, ret.
  cbn [val calls post app]. fold r1.
  destruct (val r1); cbn [val calls post app]; try reflexivity.
  fold r2. destruct (val r2); cbn [val calls post app]; reflexivity.
Qed.

(** ** Which calls belong where *)

Lemma count_loop_err role it ws : forall c err err',
  loop_calls (count_loop role it c ws err) = loop_calls (count_loop role it c ws err') /\
  loop_count (count_loop role it c ws err) = loop_count (count_loop role it c ws err') /\
  loop_exit (count_loop role it c ws err) = loop_exit (count_loop role it c ws err') /\
  waits (loop_post (count_loop role it c ws err)) =
  waits (loop_post (count_loop role it c ws err')).
Proof.
  induction ws as [|[ev|e] ws IH]; intros c err err';
    (destruct (Z.lt_ge_cases c it) as [Hlt|Hge];
     [|rewrite !count_loop_done by lia; auto]).
  - rewrite !count_loop_empty by assumption. auto.
  - rewrite !count_loop_event by assumption. loop_simpl.
    destruct (IH (count_event c ev) err err') as (-> & -> & -> & ->). auto.
  - rewrite !count_loop_fail by assumption. auto.
Qed.

Lemma count_loop_local role it err ws : forall c,
  Forall (fun x => setup_call x = false) (loop_calls (count_loop role it c ws err)).
Proof.
  induction ws as [|[ev|e] ws IH]; intros c;
    (destruct (Z.lt_ge_cases c it) as [Hlt|Hge];
     [|rewrite !count_loop_done by lia; constructor]).
  - rewrite count_loop_empty by assumption. repeat constructor.
  - rewrite count_loop_event by assumption. loop_simpl.
    repeat constructor. apply IH.
  - rewrite count_loop_fail by assumption. repeat constructor.
Qed.

Lemma DebugPartnerProcess_local env pid role it st :
  Forall (fun x => setup_call x = false)
         (calls (DebugPartnerProcess env pid role it st)).
Proof.
  destruct (attach_error env) as [e|] eqn:Ha.
  - rewrite (@DebugPartnerProcess_not_attached env pid role it st e Ha).
    repeat constructor.
  - destruct (@DebugPartnerProcess_attached env pid role it st Ha) as [-> _].
    repeat constructor. apply Forall_app. split; [apply count_loop_local|].
    destruct (loop_exit _); try constructor;
      unfold detach_calls; destruct (detach_error env); repeat constructor.
Qed.

Lemma DebugPartnerProcess_val env pid role it st :
  val (DebugPartnerProcess env pid role it st) =
  match attach_error env with
  | Some _ => Returned tt
  | None =>
      match loop_exit (loop_after role it (waits st)) with
      | StillWaiting => Blocked
      | _ => Returned tt
      end
  end.
Proof.
  destruct (attach_error env) as [e|] eqn:Ha.
  - now rewrite (@DebugPartnerProcess_not_attached env pid role it st e Ha).
  - destruct (@DebugPartnerProcess_attached env pid role it st Ha) as [_ ->].
    unfold loop_after.
    now destruct (count_loop_err role it (waits st) 0 (last_error st) 0)
      as (_ & _ & -> & _).
Qed.

Lemma send_calls_local env banner who :
  Forall (fun x => setup_call x = false) (send_calls env banner who).
Proof.
  unfold send_calls. do 3 (constructor; [reflexivity|]).
  apply Forall_app. split.
  - apply Forall_forall. intros x Hx. apply repeat_spec in Hx. now subst x.
  - repeat constructor.
Qed.

Lemma round1_local env is_server partner st :
  Forall (fun x => setup_call x = false)
         (calls (RunSpeedTestRound env is_server partner st)).
Proof.
  destruct is_server.
  - rewrite round1_server. apply send_calls_local.
  - rewrite round1_client. cbn [prepend calls app]. constructor; [reflexivity|].
    apply DebugPartnerProcess_local.
Qed.

Lemma round2_local env is_server partner st :
  Forall (fun x => setup_call x = false)
         (calls (RunSwapRoleRound env is_server partner st)).
Proof.
  destruct is_server.
  - rewrite round2_server. cbn [prepend calls app]. constructor; [reflexivity|].
    apply DebugPartnerProcess_local.
  - rewrite round2_client. apply send_calls_local.
Qed.

Lemma run_rounds_local env is_server partner st :
  exists rest,
    calls (run_rounds env is_server partner st) = connected_line partner :: rest /\
    Forall (fun x => setup_call x = false) rest.
Proof.
  pose proof (run_rounds_sequence env is_server partner st) as H.
  cbv zeta in H. rewrite H.
  pose proof (round1_local env is_server partner st) as H1.
  pose proof (round2_local env is_server partner
                (post (RunSpeedTestRound env is_server partner st))) as H2.
  destruct (val (RunSpeedTestRound _ _ _ _));
    [destruct (val (RunSwapRoleRound _ _ _ _))| |];
    cbn [calls]; eexists; (split; [reflexivity|]);
    rewrite ?Forall_app; repeat split; auto; repeat constructor.
Qed.

(** Whether the two rounds end. *)
Lemma run_rounds_val env is_server partner st :
  (never_returns env is_server (waits st) /\
   val (run_rounds env is_server partner st) = Blocked) \/
  (~ never_returns env is_server (waits st) /\
   val (run_rounds env is_server partner st) = Returned EXIT_SUCCESS).
Proof.
  pose proof (run_rounds_sequence env is_server partner st) as H.
  cbv zeta in H. rewrite H. clear H.
  unfold never_returns, counting_role. destruct is_server.
  - rewrite round1_server. cbn [val post].
    rewrite round2_server. cbn [prepend val]. rewrite DebugPartnerProcess_val.
    destruct (attach_error env) as [e|]; cbn [val].
    + right. split; [intros [? _]; discriminate|reflexivity].
    + destruct (loop_exit _); cbn [val].
      * right. split; [intros [_ ?]; discriminate|reflexivity].
      * right. split; [intros [_ ?]; discriminate|reflexivity].
      * left. auto.
  - rewrite round1_client. cbn [prepend val post]. rewrite DebugPartnerProcess_val.
    destruct (attach_error env) as [e|]; cbn [val].
    + rewrite round2_client. cbn [val].
      right. split; [intros [? _]; discriminate|reflexivity].
    + destruct (loop_exit _); cbn [val]; rewrite ?round2_client; cbn [val].
      * right. split; [intros [_ ?]; discriminate|reflexivity].
      * right. split; [intros [_ ?]; discriminate|reflexivity].
      * left. auto.
Qed.

(** The calls of the polling loop. *)
Lemma polling_calls R n polls :
  polling R n polls ->
  Forall (fun c => c = CallSleep 1 \/ exists v, c = Load F_client_pid v) polls /\
  (List.length (filter sleepb polls) <= n)%nat.
Proof.
  induction 1 as [|n v Hv HR|n polls HR Hp [IH1 IH2]].
  - split; [constructor|cbn; lia].
  - split; [|cbn; lia]. constructor; [right; eauto|constructor].
  - split; [|cbn; lia].
    constructor; [right; eauto|]. constructor; [left; reflexivity|assumption].
Qed.

Lemma last_load_app f l1 l2 :
  last_load f (l1 ++ l2) =
  match last_load f l2 with
  | Some v => Some v
  | None => last_load f l1
  end.
Proof.
  induction l1 as [|c l1 IH]; cbn.
  - now destruct (last_load f l2).
  - rewrite IH. now destruct (last_load f l2).
Qed.

Lemma last_load_local f l :
  Forall (fun x => setup_call x = false) l -> last_load f l = None.
Proof.
  induction 1 as [|c l Hc Hl IH]; [reflexivity|]. cbn. rewrite IH.
  destruct c; try reflexivity; discriminate.
Qed.

(** ** Whole runs of one process *)

Lemma main_speed env argv st :
  is_speed argv ->
  exists k, main env argv st = Atomic (k_create (create_error env)) k.
Proof.
  intros Hsp. unfold main. rewrite (proj2 (usage_test argv) Hsp).
  unfold bindP at 1, CreateFileMappingA. cbn [proc_bind].
  eexists. reflexivity.
Qed.

Lemma stable_always others : Forall (stable (fun _ => True)) others.
Proof. apply Forall_forall. intros g _ kern _. exact Logic.I. Qed.

(** Every run with the argument [speed] follows one of the paths of
    [main_outcome], whatever the rest of the system does to the mapping. *)
Lemma run_main_outcome env argv st others kern :
  is_speed argv ->
  exists kern1,
    main_outcome anything env st (fst (k_create (create_error env) kern1))
                 (fst (run_main env argv st others kern)).
Proof.
  intros Hsp. destruct (main_speed env st Hsp) as [k Hk].
  set (kern1 := match others with [] => kern | g :: _ => g kern end).
  exists kern1.
  assert (Hs : safe (fun _ => True)
                    (main_outcome anything env st
                       (fst (k_create (create_error env) kern1)))
                    (fst (step (main env argv st) kern1))).
  { apply main_after_create; try assumption.
    - intros; exact Logic.I.
    - intros _ _. split; intros ? _; exact Logic.I.
    - intros _ _ ? _; exact Logic.I. }
  unfold run_main. rewrite Hk in *. cbn [step fst] in Hs. cbn [run_env].
  fold kern1.
  apply (run_env_safe Hs); [apply stable_always|exact Logic.I].
Qed.

Lemma created_ok_no_error env kern c :
  c = fst (k_create (create_error env) kern) ->
  (created_ok c = true -> create_error env = None) /\
  (forall e, c = CreateFailed e -> create_error env = Some e).
Proof.
  intros ->. unfold k_create.
  destruct (create_error env) as [e|]; cbn.
  - split; [discriminate|]. now intros e' [= ->].
  - destruct (mapping_exists kern); cbn; split; auto; discriminate.
Qed.

Lemma not_in_local (l : list Call) x :
  Forall (fun c => setup_call c = false) l -> setup_call x = true -> ~ In x l.
Proof.
  intros Hl Hx Hin. rewrite Forall_forall in Hl.
  specialize (Hl x Hin). congruence.
Qed.

Lemma polling_no_line R n polls s msg :
  polling R n polls -> ~ In (Out s msg) polls.
Proof.
  intros Hp Hin. destruct (polling_calls Hp) as [Hf _].
  rewrite Forall_forall in Hf.
  destruct (Hf _ Hin) as [H|[v H]]; discriminate.
Qed.

Lemma polling_no_round R n polls :
  polling R n polls -> Forall (fun c => round_call c = false) polls.
Proof.
  intros Hp. destruct (polling_calls Hp) as [Hf _].
  eapply Forall_impl; [|exact Hf].
  intros c [->|[v ->]]; reflexivity.
Qed.

Lemma polling_sleeps R n polls :
  polling R n polls -> Forall (fun c => is_sleep c -> c = CallSleep 1) polls.
Proof.
  intros Hp. destruct (polling_calls Hp) as [Hf _].
  eapply Forall_impl; [|exact Hf].
  intros c [->|[v ->]]; [reflexivity|intros [s Hs]; discriminate].
Qed.

(** What the trace of a server that went through the polling shows. *)
Lemma server_trace_observed R n polls c pid v tail :
  polling R n polls ->
  (forall x, In x tail -> forall f w, x <> Load f w) ->
  let t := setup_calls c ++
           [role_line true pid; Store F_server_pid pid; Store F_client_pid 0] ++
           polls ++ Load F_client_pid v :: tail in
  In (role_line true pid) t /\ last_load F_client_pid t = Some v.
Proof.
  intros Hp Htail t. split.
  - unfold t. apply in_or_app. right. now left.
  - unfold t. rewrite !last_load_app.
    assert (Hnone : last_load F_client_pid tail = None).
    { clear -Htail. induction tail as [|x tail IH]; [reflexivity|]. cbn.
      rewrite IH by (intros; apply Htail; now right).
      destruct x; try reflexivity.
      exfalso. eapply Htail; [now left|reflexivity]. }
    cbn [last_load]. rewrite Hnone. reflexivity.
Qed.

Lemma local_no_load (l : list Call) :
  Forall (fun c => setup_call c = false) l ->
  forall x, In x l -> forall f w, x <> Load f w.
Proof.
  intros Hl x Hx f w ->. rewrite Forall_forall in Hl.
  specialize (Hl _ Hx). discriminate.
Qed.

Lemma client_not_server R env st c r :
  main_outcome R env st c r ->
  role_error env c = ERROR_ALREADY_EXISTS -> created_ok c = true ->
  (forall e, map_view env <> ViewFails e) ->
  ~ ran_as_server env r.
Proof.
  intros Hout Hrl Hok Hview Hin. unfold ran_as_server in Hin.
  inversion Hout as [e Hc|e _ Hv|o polls _ _ Hne|o polls v _ _ Hne|o v _ _ _ Hv];
    subst; try congruence.
  - discriminate.
  - destruct (run_rounds_local env false v
                (mkLocal (waits st) (role_error env c))) as (rest & Hr & Hl).
    cbn [prepend calls] in Hin. rewrite Hr in Hin.
    apply in_app_or in Hin. destruct Hin as [Hin|Hin].
    + cbn in Hin. repeat (destruct Hin as [Hin|Hin]; try discriminate Hin). exact Hin.
    + destruct Hin as [Hin|Hin]; [discriminate|].
      exact (@not_in_local rest (role_line true (own_pid env)) Hl eq_refl Hin).
Qed.

(** The paths of [main] by what can be observed of them. *)
Lemma outcome_summary R env st c r :
  main_outcome R env st c r ->
  ((exists e, c = CreateFailed e) /\
   val r = Returned EXIT_FAILURE /\ ~ ran_as_server env r /\
   Forall (fun x => round_call x = false) (calls r)) \/
  (created_ok c = true /\ (exists e, map_view env = ViewFails e) /\
   val r = Returned EXIT_FAILURE /\ ~ ran_as_server env r /\
   Forall (fun x => round_call x = false) (calls r)) \/
  (created_ok c = true /\ (exists o, map_view env = ViewOk o) /\
   ran_as_server env r /\ saw_no_client r /\
   val r = Returned EXIT_FAILURE /\ In no_client_line (calls r) /\
   Forall (fun x => round_call x = false) (calls r) /\
   Forall (fun x => is_sleep x -> x = CallSleep 1) (calls r) /\
   (List.length (filter sleepb (calls r)) <= 10)%nat) \/
  (created_ok c = true /\ (exists o, map_view env = ViewOk o) /\
   ran_as_server env r /\ ~ saw_no_client r /\
   exists v pre, v <> 0 /\ R F_client_pid v /\
                 Forall (fun x => round_call x = false) pre /\
                 r = prepend pre (run_rounds env true v (at_rounds env st c))) \/
  (created_ok c = true /\ (exists o, map_view env = ViewOk o) /\
   ~ ran_as_server env r /\
   exists v pre, R F_server_pid v /\
                 Forall (fun x => round_call x = false) pre /\
                 r = prepend pre (run_rounds env false v (at_rounds env st c))).
Proof.
  intros Hout.
  inversion Hout as [e Hc|e Hok Hv|o polls Hok Hv Hne Hp H0
                     |o polls v Hok Hv Hne Hp HR Hnz|o v Hok Hv Heq HR];
    subst r.
  - left. cbn [val calls]. split; [eauto|]. split; [reflexivity|].
    split; [|repeat constructor].
    unfold ran_as_server. cbn.
    intros Hin. repeat (destruct Hin as [Hin|Hin]; try discriminate Hin). exact Hin.
  - right; left. cbn [val calls].
    split; [assumption|]. split; [eauto|]. split; [reflexivity|].
    split; [|repeat constructor].
    unfold ran_as_server. cbn.
    intros Hin. repeat (destruct Hin as [Hin|Hin]; try discriminate Hin). exact Hin.
  - right; right; left.
    destruct (@server_trace_observed R 10 polls c (own_pid env) 0
                [no_client_line; CallUnmapViewOfFile; CallCloseHandle] Hp)
      as [Hrole Hlast].
    { intros x Hx f w ->. cbn in Hx.
      repeat (destruct Hx as [Hx|Hx]; try discriminate Hx). exact Hx. }
    cbv zeta in Hrole, Hlast.
    unfold ran_as_server, saw_no_client. cbn [val calls].
    repeat split; eauto.
    + apply in_or_app. right. apply in_or_app. right. apply in_or_app. right.
      right. now left.
    + repeat (apply Forall_app; split); repeat constructor.
      now apply polling_no_round with (R := R) (n := 10%nat).
    + repeat (apply Forall_app; split); repeat constructor;
        try (intros [s Hs]; discriminate).
      now apply polling_sleeps with (R := R) (n := 10%nat).
    + rewrite !filter_app, !length_app. cbn.
      destruct (polling_calls Hp) as [_ Hlen]. lia.
  - right; right; right; left.
    destruct (run_rounds_local env true v (at_rounds env st c))
      as (rest & Hr & Hl).
    destruct (@server_trace_observed R 10 polls c (own_pid env) v
                (connected_line v :: rest) Hp)
      as [Hrole Hlast].
    { intros x [<-|Hx]; [discriminate|]. now apply (local_no_load Hl). }
    cbv zeta in Hrole, Hlast.
    fold (at_rounds env st c).
    set (pre := setup_calls c ++
                [role_line true (own_pid env);
                 Store F_server_pid (own_pid env); Store F_client_pid 0] ++
                polls ++ [Load F_client_pid v]).
    assert (Hcalls : calls (prepend pre (run_rounds env true v (at_rounds env st c))) =
                     setup_calls c ++
                     [role_line true (own_pid env);
                      Store F_server_pid (own_pid env); Store F_client_pid 0] ++
                     polls ++ Load F_client_pid v :: connected_line v :: rest).
    { unfold pre. cbn [prepend calls]. rewrite Hr.
      rewrite <- !app_assoc. reflexivity. }
    unfold ran_as_server, saw_no_client. rewrite Hcalls.
    split; [assumption|]. split; [eauto|]. split; [assumption|].
    split; [rewrite Hlast; intros [= ?]; contradiction|].
    exists v, pre. repeat split; try assumption.
    unfold pre. repeat (apply Forall_app; split); repeat constructor.
    now apply polling_no_round with (R := R) (n := 10%nat).
  - right; right; right; right.
    split; [assumption|]. split; [eauto|].
    split; [eapply client_not_server; eauto; intros e; congruence|].
    exists v. eexists. split; [eassumption|].
    split; [|reflexivity]. repeat constructor.
Qed.

(** C7: in every run of [main] in which the process took the server role
    and the last value it read from [client_pid] is zero, [main] returns
    [EXIT_FAILURE], the line saying that the client did not join is
    written, no call of a round occurs (no exception raised, nothing
    debugged, no clock read, no warm-up sleep), every sleep lasts one
    second, and there are at most ten of them. *)
Theorem server_without_client_fails_before_any_round
        (env : Env) (argv : list string) (st : Local)
        (others : list (Kernel -> Kernel)) (kern : Kernel) :
  let r := fst (run_main env argv st others kern) in
  ran_as_server env r -> saw_no_client r ->
  val r = Returned EXIT_FAILURE /\
  In no_client_line (calls r) /\
  Forall (fun x => round_call x = false) (calls r) /\
  Forall (fun x => is_sleep x -> x = CallSleep 1) (calls r) /\
  (List.length (filter sleepb (calls r)) <= 10)%nat.
Proof.
  intros r Hran Hsaw. unfold r in *. clear r.
  destruct (is_speed_dec argv) as [Hsp|Hsp].
  - destruct (run_main_outcome env st others kern Hsp) as [kern1 Hout].
    destruct (outcome_summary Hout)
      as [(_ & _ & Hn & _)|[(_ & _ & _ & Hn & _)|[H|[(_ & _ & _ & Hn & _)|(_ & _ & Hn & _)]]]];
      try contradiction.
    tauto.
  - exfalso. unfold run_main in Hran. rewrite (main_usage env st Hsp) in Hran.
    unfold ran_as_server in Hran. cbn in Hran.
    destruct Hran as [Hran|[]]. discriminate.
Qed.

Lemma server_without_client_fails_before_any_round_witness :
  let env := mkEnv 64 100 (fun _ => 4096) None (ViewOk None) None None in
  let r := fst (run_main env ["test.exe"; "speed"] (mkLocal [] 0) [] no_mapping) in
  ran_as_server env r /\ saw_no_client r /\
  (val r = Returned EXIT_FAILURE /\
   In no_client_line (calls r) /\
   Forall (fun x => round_call x = false) (calls r) /\
   Forall (fun x => is_sleep x -> x = CallSleep 1) (calls r) /\
   (List.length (filter sleepb (calls r)) <= 10)%nat).
Proof.
  intros env r.
  assert (Hran : ran_as_server env r).
  { unfold ran_as_server. vm_compute. do 2 right. left. reflexivity. }
  assert (Hsaw : saw_no_client r) by (vm_compute; reflexivity).
  split; [exact Hran|]. split; [exact Hsaw|].
  exact (@server_without_client_fails_before_any_round
           env ["test.exe"; "speed"] (mkLocal [] 0) [] no_mapping Hran Hsaw).
Defined.

(** ** The exit status *)

Lemma prepend_val {A} pre (r : Res A) : val (prepend pre r) = val r.
Proof. reflexivity. Qed.

Lemma main_status env argv st others kern :
  let r := fst (run_main env argv st others kern) in
  (val r = Returned EXIT_FAILURE /\ fails env argv r /\ ~ hangs env argv st r) \/
  (val r = Blocked /\ ~ fails env argv r /\ hangs env argv st r) \/
  (val r = Returned EXIT_SUCCESS /\ ~ fails env argv r /\ ~ hangs env argv st r).
Proof.
  intros r. unfold r. clear r.
  destruct (is_speed_dec argv) as [Hsp|Hsp].
  - destruct (run_main_outcome env st others kern Hsp) as [kern1 Hout].
    set (c := fst (k_create (create_error env) kern1)) in *.
    destruct (@created_ok_no_error env kern1 c eq_refl) as [Hcok Hcfail].
    destruct (outcome_summary Hout)
      as [([e He] & Hval & Hn & _)
         |[(Hok & [e He] & Hval & Hn & _)
          |[(Hok & [o Ho] & Hran & Hsaw & Hval & _)
           |[(Hok & [o Ho] & Hran & Hsaw & v & pre & Hnz & _ & _ & Hr)
            |(Hok & [o Ho] & Hran & v & pre & _ & _ & Hr)]]]].
    + left. split; [assumption|]. split.
      * split; [assumption|]. left. left. rewrite (Hcfail e He). discriminate.
      * intros (_ & Hns & _). apply Hns. left.
        rewrite (Hcfail e He). discriminate.
    + left. split; [assumption|]. split.
      * split; [assumption|]. left. right. eauto.
      * intros (_ & Hns & _). apply Hns. right. eauto.
    + left. split; [assumption|]. split.
      * split; [assumption|]. right. auto.
      * intros (_ & _ & Hns & _). apply Hns. auto.
    + assert (Hnf : ~ fails env argv (fst (run_main env argv st others kern))).
      { intros (_ & [[Hc|[e He]]|[_ Hs]]).
        - apply Hc. auto.
        - congruence.
        - contradiction. }
      destruct (run_rounds_val env true v (at_rounds env st c)) as [[Hnr Hv]|[Hnr Hv]];
        cbn [at_rounds waits] in Hnr;
        rewrite Hr in *; rewrite prepend_val, Hv in *.
      * right. left. split; [reflexivity|]. split; [assumption|].
        split; [assumption|]. split.
        { intros [Hc|[e He]]; [apply Hc; auto|congruence]. }
        split; [tauto|]. left. split; [assumption|].
        exact Hnr.
      * right. right. split; [reflexivity|]. split; [assumption|].
        intros (_ & _ & _ & [[_ Hh]|[Hh _]]); [|contradiction].
        exact (Hnr Hh).
    + assert (Hnf : ~ fails env argv (fst (run_main env argv st others kern))).
      { intros (_ & [[Hc|[e He]]|[Hs _]]).
        - apply Hc. auto.
        - congruence.
        - contradiction. }
      destruct (run_rounds_val env false v (at_rounds env st c)) as [[Hnr Hv]|[Hnr Hv]];
        cbn [at_rounds waits] in Hnr;
        rewrite Hr in *; rewrite prepend_val, Hv in *.
      * right. left. split; [reflexivity|]. split; [assumption|].
        split; [assumption|]. split.
        { intros [Hc|[e He]]; [apply Hc; auto|congruence]. }
        split; [tauto|]. right. split; [assumption|].
        exact Hnr.
      * right. right. split; [reflexivity|]. split; [assumption|].
        intros (_ & _ & _ & [[Hh _]|[_ Hh]]); [contradiction|].
        exact (Hnr Hh).
  - right. right. unfold run_main. rewrite (main_usage env st Hsp). cbn.
    split; [reflexivity|]. split; intros [? _]; contradiction.
Qed.

(** C8, as the code has it: [main] returns [EXIT_FAILURE] exactly when the
    argument is [speed] and the set-up of the shared memory fails or the
    process, as server, last read a zero [client_pid]; it never returns
    exactly when it reached the rounds and its counting round stays blocked
    in [WaitForDebugEvent]; in every other run it returns [EXIT_SUCCESS].
    Without the argument [speed] it writes the usage line, returns
    [EXIT_SUCCESS], and makes no access to the mapping at all. *)
Theorem exit_status_of_main
        (env : Env) (argv : list string) (st : Local)
        (others : list (Kernel -> Kernel)) (kern : Kernel) :
  let r := fst (run_main env argv st others kern) in
  (val r = Returned EXIT_FAILURE <-> fails env argv r) /\
  (val r = Blocked <-> hangs env argv st r) /\
  (val r = Returned EXIT_SUCCESS <-> ~ fails env argv r /\ ~ hangs env argv st r) /\
  (~ is_speed argv ->
   main env argv st = Done (mkRes [usage_line] (Returned EXIT_SUCCESS) st) /\
   run_main env argv st others kern =
   (mkRes [usage_line] (Returned EXIT_SUCCESS) st, kern)).
Proof.
  intros r.
  pose proof (main_status env argv st others kern) as H. cbv zeta in H. fold r in H.
  split; [|split; [|split]].
  - destruct H as [(Hv & Hf & Hh)|[(Hv & Hf & Hh)|(Hv & Hf & Hh)]];
      rewrite Hv; unfold EXIT_SUCCESS, EXIT_FAILURE;
      split; intros; try tauto; congruence.
  - destruct H as [(Hv & Hf & Hh)|[(Hv & Hf & Hh)|(Hv & Hf & Hh)]];
      rewrite Hv; unfold EXIT_SUCCESS, EXIT_FAILURE;
      split; intros; try tauto; congruence.
  - destruct H as [(Hv & Hf & Hh)|[(Hv & Hf & Hh)|(Hv & Hf & Hh)]];
      rewrite Hv; unfold EXIT_SUCCESS, EXIT_FAILURE;
      split; intros; try tauto; congruence.
  - intros Hsp. split; [now apply main_usage|].
    unfold run_main. now rewrite (main_usage env st Hsp).
Qed.

(** C8 as stated does not hold.  A process that opens an existing
    mapping whose [server_pid] is 7, attaches to process 7 and is handed
    no debug event meets none of the failure conditions; its last call is
    a wait that does not return, so it never exits with a success
    status. *)
Lemma exit_status_claim_fails_for_a_blocked_client :
  let kern := mkKernel true (mkShared 7 0) in
  let r := fst (run_main first_env speed_argv no_events [] kern) in
  calls r =
    [CallCreateFileMappingA kSharedMappingName sizeof_SharedData OpenedExisting;
     CallMapViewOfFile sizeof_SharedData true;
     role_line false 100; Load F_server_pid 7; Store F_client_pid 100;
     connected_line 7;
     Out cout [Str "Round 1 (client debugs server):"; LF];
     attaching_message (literal first_env "Client") 7;
     CallDebugActiveProcess 7 true;
     CallWaitForDebugEvent INFINITE None] /\
  val r = Blocked /\
  ~ fails first_env speed_argv r /\
  ~ exit_status_claim first_env speed_argv no_events [] kern.
Proof.
  intros kern r.
  assert (Hc : calls r =
    [CallCreateFileMappingA kSharedMappingName sizeof_SharedData OpenedExisting;
     CallMapViewOfFile sizeof_SharedData true;
     role_line false 100; Load F_server_pid 7; Store F_client_pid 100;
     connected_line 7;
     Out cout [Str "Round 1 (client debugs server):"; LF];
     attaching_message (literal first_env "Client") 7;
     CallDebugActiveProcess 7 true;
     CallWaitForDebugEvent INFINITE None]) by (vm_compute; reflexivity).
  assert (Hb : val r = Blocked) by (vm_compute; reflexivity).
  assert (Hnf : ~ fails first_env speed_argv r).
  { intros (_ & [[Hf|[e He]]|[Hran _]]).
    - apply Hf. reflexivity.
    - discriminate He.
    - unfold ran_as_server in Hran. rewrite Hc in Hran. cbn in Hran.
      repeat (destruct Hran as [Hran|Hran]; try discriminate Hran). exact Hran. }
  split; [exact Hc|]. split; [exact Hb|]. split; [exact Hnf|].
  intros [_ Hsucc]. fold kern in Hsucc. fold r in Hsucc.
  specialize (Hsucc Hnf). rewrite Hb in Hsucc. discriminate Hsucc.
Qed.

(** A run with the argument [speed] under an invariant of the mapping. *)
Lemma run_main_invariant (I : Kernel -> Prop) (R : Field -> DWORD -> Prop)
      env argv st others kern :
  is_speed argv ->
  let kern1 := match others with [] => kern | g :: _ => g kern end in
  let c := fst (k_create (create_error env) kern1) in
  (forall f k, I k -> R f (fst (k_load f k))) ->
  (created_ok c = true -> role_error env c <> ERROR_ALREADY_EXISTS ->
   stable I (fun k => snd (k_store F_server_pid (own_pid env) k)) /\
   stable I (fun k => snd (k_store F_client_pid 0 k))) ->
  (created_ok c = true -> role_error env c = ERROR_ALREADY_EXISTS ->
   stable I (fun k => snd (k_store F_client_pid (own_pid env) k))) ->
  Forall (stable I) (tl others) ->
  I (snd (k_create (create_error env) kern1)) ->
  main_outcome R env st c (fst (run_main env argv st others kern)).
Proof.
  intros Hsp kern1 c HR Hserver Hclient Hothers HI.
  destruct (main_speed env st Hsp) as [k Hk].
  pose proof (@main_after_create I R env argv st kern1 Hsp HR Hserver Hclient)
    as Hs.
  unfold run_main. rewrite Hk in *. cbn [step fst] in Hs. cbn [run_env].
  fold kern1.
  apply (run_env_safe Hs); assumption.
Qed.

(** A process that opens an existing mapping and whose [MapViewOfFile]
    leaves the last-error value alone announces a connection to the id it
    finds in [server_pid]. *)
Lemma opener_connects env argv st kern :
  is_speed argv -> create_error env = None -> map_view env = ViewOk None ->
  mapping_exists kern = true ->
  connected (fst (run_main env argv st [] kern)) (server_pid (shared kern)).
Proof.
  intros Hsp Hc Hv Hk.
  set (s := server_pid (shared kern)).
  assert (Hkc : k_create (create_error env) kern = (OpenedExisting, kern)).
  { rewrite Hc. unfold k_create. now rewrite Hk. }
  assert (Hrole : role_error env OpenedExisting = ERROR_ALREADY_EXISTS).
  { unfold role_error. now rewrite Hv. }
  pose proof (@run_main_invariant
                (fun k => server_pid (shared k) = s)
                (fun f v => f = F_server_pid -> v = s)
                env argv st [] kern Hsp) as H.
  cbv beta iota zeta in H. rewrite Hkc in H. cbn [fst snd tl] in H.
  assert (Hout : main_outcome (fun f v => f = F_server_pid -> v = s)
                   env st OpenedExisting (fst (run_main env argv st [] kern))).
  { apply H.
    - intros f k HIk ->. exact HIk.
    - intros _ Hne. contradiction.
    - intros _ _ k HIk. exact HIk.
    - constructor.
    - reflexivity. }
  clear H. revert Hout.
  generalize (fst (run_main env argv st [] kern)). intros m Hout.
  inversion Hout as [e He|e Hok Hv'|o polls Hok Hv' Hne Hp H0
                     |o polls v Hok Hv' Hne Hp HR Hnz|o v Hok Hv' Heq HR];
    subst m; clear Hout.
  - discriminate He.
  - congruence.
  - contradiction.
  - contradiction.
  - rewrite (HR eq_refl).
    destruct (run_rounds_local env false s
                (mkLocal (waits st) (role_error env OpenedExisting)))
      as (rest & Hr & _).
    unfold connected. cbn [prepend calls]. rewrite Hr.
    apply in_or_app. right. now left.
Qed.

(** ** A failed attach *)

(** A run that announces a connection has reached the rounds. *)
Lemma outcome_reaches_rounds R env st c r p :
  main_outcome R env st c r -> connected r p ->
  exists pre,
    Forall (fun x => round_call x = false) pre /\
    ((ran_as_server env r /\
      r = prepend pre (run_rounds env true p (at_rounds env st c))) \/
     (~ ran_as_server env r /\
      r = prepend pre (run_rounds env false p (at_rounds env st c)))).
Proof.
  intros Hout Hconn. unfold connected in Hconn.
  pose proof (client_not_server Hout) as Hcl.
  unfold at_rounds.
  inversion Hout as [e Hc|e Hok Hv|o polls Hok Hv Hne Hp H0
                     |o polls v Hok Hv Hne Hp HR Hnz|o v Hok Hv Heq HR];
    subst r; clear Hout; cbn [prepend calls] in Hconn.
  - exfalso. cbn in Hconn.
    repeat (destruct Hconn as [Hconn|Hconn]; try discriminate Hconn). exact Hconn.
  - exfalso. cbn in Hconn.
    repeat (destruct Hconn as [Hconn|Hconn]; try discriminate Hconn). exact Hconn.
  - exfalso.
    apply in_app_or in Hconn. destruct Hconn as [Hconn|Hconn];
      [cbn in Hconn;
       repeat (destruct Hconn as [Hconn|Hconn]; try discriminate Hconn); exact Hconn|].
    apply in_app_or in Hconn. destruct Hconn as [Hconn|Hconn];
      [cbn in Hconn;
       repeat (destruct Hconn as [Hconn|Hconn]; try discriminate Hconn); exact Hconn|].
    apply in_app_or in Hconn. destruct Hconn as [Hconn|Hconn];
      [exact (@polling_no_line R 10%nat polls _ _ Hp Hconn)|].
    cbn in Hconn.
    repeat (destruct Hconn as [Hconn|Hconn]; try discriminate Hconn). exact Hconn.
  - clear Hcl.
    destruct (run_rounds_local env true v (mkLocal (waits st) (role_error env c)))
      as (rest & Hr & Hl).
    rewrite Hr in Hconn.
    assert (Hpv : p = v).
    { apply in_app_or in Hconn. destruct Hconn as [Hconn|Hconn].
      - exfalso.
        apply in_app_or in Hconn. destruct Hconn as [Hconn|Hconn];
          [cbn in Hconn;
           repeat (destruct Hconn as [Hconn|Hconn]; try discriminate Hconn);
           exact Hconn|].
        apply in_app_or in Hconn. destruct Hconn as [Hconn|Hconn];
          [cbn in Hconn;
           repeat (destruct Hconn as [Hconn|Hconn]; try discriminate Hconn);
           exact Hconn|].
        apply in_app_or in Hconn. destruct Hconn as [Hconn|Hconn];
          [exact (@polling_no_line R 10%nat polls _ _ Hp Hconn)|].
        cbn in Hconn.
        repeat (destruct Hconn as [Hconn|Hconn]; try discriminate Hconn). exact Hconn.
      - destruct Hconn as [Hconn|Hconn].
        + now injection Hconn.
        + exfalso.
          exact (@not_in_local rest (connected_line p) Hl eq_refl Hconn). }
    subst p. clear Hconn Hr Hl rest.
    generalize (run_rounds env true v (mkLocal (waits st) (role_error env c))).
    intros rr.
    exists (setup_calls c ++
            [role_line true (own_pid env);
             Store F_server_pid (own_pid env); Store F_client_pid 0] ++
            polls ++ [Load F_client_pid v]).
    split.
    { repeat (apply Forall_app; split);
        try (now apply polling_no_round with (R := R) (n := 10%nat));
        repeat (constructor; [reflexivity|]); constructor. }
    left. split; [|reflexivity].
    unfold ran_as_server. cbn [prepend calls].
    apply in_or_app. left. apply in_or_app. right. now left.
  - destruct (run_rounds_local env false v (mkLocal (waits st) (role_error env c)))
      as (rest & Hr & Hl).
    rewrite Hr in Hconn.
    assert (Hpv : p = v).
    { apply in_app_or in Hconn. destruct Hconn as [Hconn|Hconn].
      - exfalso. cbn in Hconn.
        repeat (destruct Hconn as [Hconn|Hconn]; try discriminate Hconn).
        exact Hconn.
      - destruct Hconn as [Hconn|Hconn].
        + now injection Hconn.
        + exfalso.
          exact (@not_in_local rest (connected_line p) Hl eq_refl Hconn). }
    subst p. clear Hconn Hr Hl rest.
    assert (Hnot : forall e, map_view env <> ViewFails e)
      by (intros e He; congruence).
    specialize (Hcl Heq Hok Hnot). revert Hcl.
    generalize (run_rounds env false v (mkLocal (waits st) (role_error env c))).
    intros rr Hcl.
    exists (setup_calls c ++
            [role_line false (own_pid env); Load F_server_pid v;
             Store F_client_pid (own_pid env)]).
    split.
    { repeat (constructor; [reflexivity|]); constructor. }
    right. split; [exact Hcl|reflexivity].
Qed.

(** The rounds of [main] when every attach fails. *)
Lemma run_rounds_attach_failed env is_server partner st e :
  attach_error env = Some e ->
  val (run_rounds env is_server partner st) = Returned EXIT_SUCCESS /\
  calls (run_rounds env is_server partner st) =
  (if is_server then server_rounds_attach_failed env partner e
   else client_rounds_attach_failed env partner e).
Proof.
  intros Ha.
  pose proof (run_rounds_sequence env is_server partner st) as H.
  cbv zeta in H. rewrite H. clear H.
  destruct is_server.
  - rewrite round2_server, round1_server.
    rewrite (@DebugPartnerProcess_not_attached env partner _ _ _ e Ha).
    unfold server_rounds_attach_failed, failed_attach_calls, closing_calls.
    generalize (send_calls env "Round 1 (server sends, client debugs):"
                           "Server: sent ").
    intros sent. split; reflexivity.
  - rewrite round2_client, round1_client.
    rewrite (@DebugPartnerProcess_not_attached env partner _ _ st e Ha).
    unfold client_rounds_attach_failed, failed_attach_calls, closing_calls.
    generalize (send_calls env "Round 2 (client sends, server debugs):"
                           "Client: sent ").
    intros sent. split; reflexivity.
Qed.

(** C9: when [DebugActiveProcess] fails, [DebugPartnerProcess] writes the
    attach-failed line with the error code on the error stream and
    returns: it makes no wait, consumes no event, and does not detach.
    The round function that called it writes its banner before that and
    returns as well.  [main] goes on: a run that announced its connection
    returns [EXIT_SUCCESS], and its calls after the negotiation are, for a
    client, the connection line, round 1 with the failed attach, the whole
    of round 2 (the warm-up, the banner, the timed [kTestIterations]
    raises and the report) and the closing calls; for a server, the
    connection line, the whole of round 1, round 2 with the failed attach,
    and the closing calls.  No run of [main] is stopped by the failure:
    [main] returns [EXIT_SUCCESS], unless it returns [EXIT_FAILURE] for one
    of the reasons that precede the rounds. *)
Theorem attach_failure_is_reported_not_fatal
        (env : Env) (pid : DWORD) (role : string_view) (iterations : Z)
        (st : Local) (e : DWORD) :
  attach_error env = Some e ->
  let r := DebugPartnerProcess env pid role iterations st in
  calls r = [attaching_message role pid; CallDebugActiveProcess pid false;
             attach_failed_message role e] /\
  val r = Returned tt /\
  waits (post r) = waits st /\
  ~ Exists is_wait (calls r) /\
  val (RunSpeedTestRound env false pid st) = Returned tt /\
  val (RunSwapRoleRound env true pid st) = Returned tt /\
  calls (RunSpeedTestRound env false pid st) =
    Out cout [Str "Round 1 (client debugs server):"; LF] ::
    failed_attach_calls (literal env "Client") pid e /\
  calls (RunSwapRoleRound env true pid st) =
    Out cout [Str "Round 2 (server debugs client):"; LF] ::
    failed_attach_calls (literal env "Server") pid e /\
  (forall argv others kern,
      let m := fst (run_main env argv st others kern) in
      val m = Returned EXIT_SUCCESS \/
      (val m = Returned EXIT_FAILURE /\ fails env argv m)) /\
  (forall argv others kern partner,
      let m := fst (run_main env argv st others kern) in
      connected m partner ->
      val m = Returned EXIT_SUCCESS /\
      exists pre,
        Forall (fun x => round_call x = false) pre /\
        ((ran_as_server env m /\
          calls m = pre ++ server_rounds_attach_failed env partner e) \/
         (~ ran_as_server env m /\
          calls m = pre ++ client_rounds_attach_failed env partner e))).
Proof.
  intros Ha r. unfold r.
  rewrite (@DebugPartnerProcess_not_attached env pid role iterations st e Ha).
  cbn [calls val post waits].
  split; [reflexivity|]. split; [reflexivity|]. split; [reflexivity|].
  split; [|split; [|split; [|split; [|split; [|split]]]]].
  - intros H.
    repeat (inversion H as [? ? (t & w & Hx)|? ? H']; subst;
            [discriminate|clear H; rename H' into H]).
    inversion H.
  - rewrite round1_client. cbn [prepend val].
    now rewrite (@DebugPartnerProcess_not_attached env pid _ _ st e Ha).
  - rewrite round2_server. cbn [prepend val].
    now rewrite (@DebugPartnerProcess_not_attached env pid _ _ st e Ha).
  - rewrite round1_client.
    now rewrite (@DebugPartnerProcess_not_attached env pid _ _ st e Ha).
  - rewrite round2_server.
    now rewrite (@DebugPartnerProcess_not_attached env pid _ _ st e Ha).
  - intros argv others kern.
    destruct (main_status env argv st others kern)
      as [(Hv & Hf & _)|[(_ & _ & Hh)|(Hv & _ & _)]].
    + right. split; assumption.
    + exfalso. destruct Hh as (_ & _ & _ & [[_ [Hn _]]|[_ [Hn _]]]); congruence.
    + left. assumption.
  - intros argv others kern partner Hconn.
    destruct (is_speed_dec argv) as [Hsp|Hsp].
    + destruct (run_main_outcome env st others kern Hsp) as [kern1 Hout].
      revert Hconn Hout.
      generalize (fst (run_main env argv st others kern)).
      generalize (fst (k_create (create_error env) kern1)).
      intros c m Hconn Hout.
      destruct (@outcome_reaches_rounds anything env st c m partner Hout Hconn)
        as (pre & Hpre & [(Hran & Hm)|(Hran & Hm)]).
      * destruct (@run_rounds_attach_failed env true partner
                    (at_rounds env st c) e Ha) as [Hv Hc].
        split; [rewrite Hm, prepend_val; exact Hv|].
        exists pre. split; [exact Hpre|]. left. split; [exact Hran|].
        rewrite Hm. cbn [prepend calls]. rewrite Hc. reflexivity.
      * destruct (@run_rounds_attach_failed env false partner
                    (at_rounds env st c) e Ha) as [Hv Hc].
        split; [rewrite Hm, prepend_val; exact Hv|].
        exists pre. split; [exact Hpre|]. right. split; [exact Hran|].
        rewrite Hm. cbn [prepend calls]. rewrite Hc. reflexivity.
    + exfalso. unfold run_main in Hconn. rewrite (main_usage env st Hsp) in Hconn.
      unfold connected in Hconn. cbn in Hconn.
      destruct Hconn as [Hconn|[]]. discriminate Hconn.
Qed.

Lemma attach_failure_is_reported_not_fatal_witness :
  let env := mkEnv 64 100 (fun _ => 4096) None (ViewOk None) (Some 5) None in
  let role := mkView 0 "Client" in
  let st := mkLocal [] 0 in
  let m := fst (run_main env speed_argv st [] joined_mapping) in
  attach_error env = Some 5 /\
  connected m 200 /\
  (calls (DebugPartnerProcess env 200 role 10000 st) =
     [attaching_message role 200; CallDebugActiveProcess 200 false;
      attach_failed_message role 5] /\
   val (DebugPartnerProcess env 200 role 10000 st) = Returned tt /\
   waits (post (DebugPartnerProcess env 200 role 10000 st)) = waits st /\
   ~ Exists is_wait (calls (DebugPartnerProcess env 200 role 10000 st)) /\
   val (RunSpeedTestRound env false 200 st) = Returned tt /\
   val (RunSwapRoleRound env true 200 st) = Returned tt) /\
  (val m = Returned EXIT_SUCCESS /\
   exists pre,
     Forall (fun x => round_call x = false) pre /\
     ((ran_as_server env m /\
       calls m = pre ++ server_rounds_attach_failed env 200 5) \/
      (~ ran_as_server env m /\
       calls m = pre ++ client_rounds_attach_failed env 200 5))).
Proof.
  intros env role st m.
  assert (Hsp : is_speed speed_argv) by (split; [cbn; lia|reflexivity]).
  pose proof (@opener_connects env speed_argv st joined_mapping Hsp
                eq_refl eq_refl eq_refl) as Hconn.
  pose proof (@attach_failure_is_reported_not_fatal env 200 role 10000 st 5
                eq_refl) as H.
  cbv zeta in H.
  destruct H as (H1 & H2 & H3 & H4 & H5 & H6 & _ & _ & _ & Hmain).
  split; [reflexivity|]. split; [exact Hconn|].
  split; [repeat split; assumption|].
  exact (Hmain speed_argv [] joined_mapping 200 Hconn).
Defined.

(** ** The order of the rounds *)

Lemma count_loop_debugger role it err ws : forall c,
  Forall (fun x => debugger_call x = true) (loop_calls (count_loop role it c ws err)).
Proof.
  induction ws as [|[ev|e] ws IH]; intros c;
    (destruct (Z.lt_ge_cases c it) as [Hlt|Hge];
     [|rewrite !count_loop_done by lia; constructor]).
  - rewrite count_loop_empty by assumption. repeat constructor.
  - rewrite count_loop_event by assumption. loop_simpl.
    repeat constructor. apply IH.
  - rewrite count_loop_fail by assumption. repeat constructor.
Qed.

Lemma DebugPartnerProcess_debugger env pid role it st :
  Forall (fun x => debugger_call x = true)
         (calls (DebugPartnerProcess env pid role it st)).
Proof.
  destruct (attach_error env) as [e|] eqn:Ha.
  - rewrite (@DebugPartnerProcess_not_attached env pid role it st e Ha).
    repeat constructor.
  - destruct (@DebugPartnerProcess_attached env pid role it st Ha) as [-> _].
    do 2 (constructor; [reflexivity|]).
    apply Forall_app. split; [apply count_loop_debugger|].
    destruct (loop_exit _); try constructor;
      unfold detach_calls; destruct (detach_error env); repeat constructor.
Qed.


Lemma send_calls_sender env banner who :
  Forall (fun x => sender_call x = true) (send_calls env banner who).
Proof.
  unfold send_calls. do 3 (constructor; [reflexivity|]).
  apply Forall_app. split.
  - apply Forall_forall. intros x Hx. apply repeat_spec in Hx. now subst x.
  - repeat constructor.
Qed.



(** ** Two processes *)

Lemma safe_always {A} (p : Proc A) : safe (fun _ => True) (fun _ => True) p.
Proof.
  induction p as [a|X op k IH].
  - now apply safe_done.
  - apply safe_atomic; auto.
Qed.

Lemma run_pair_swap {A B} sched : forall (p : Proc A) (q : Proc B) kern,
  run_pair (map negb sched) q p kern =
  (snd (fst (run_pair sched p q kern)),
   fst (fst (run_pair sched p q kern)),
   snd (run_pair sched p q kern)).
Proof.
  induction sched as [|[|] sched IH]; intros p q kern; cbn [map negb run_pair].
  - reflexivity.
  - apply IH.
  - apply IH.
Qed.

(** What a run that announces a connection shows, when [MapViewOfFile]
    leaves the last-error value alone. *)
Lemma outcome_connected R env st c r p :
  main_outcome R env st c r -> leaves_last_error env -> connected r p ->
  (c = CreatedFresh /\ negotiated_as_server env r p /\
   R F_client_pid p /\ p <> 0) \/
  (c = OpenedExisting /\ negotiated_as_client env r p /\ R F_server_pid p).
Proof.
  intros Hout Hleave Hconn. unfold connected in Hconn.
  assert (Hrole : forall o, map_view env = ViewOk o ->
                            role_error env c = created_error c).
  { intros o Ho. unfold role_error. rewrite Ho.
    destruct o as [e|]; [|reflexivity]. now destruct (Hleave e). }
  inversion Hout as [e Hc|e Hok Hv|o polls Hok Hv Hne Hp H0
                     |o polls v Hok Hv Hne Hp HR Hnz|o v Hok Hv Heq HR];
    subst r; cbn [prepend calls] in Hconn.
  - exfalso. cbn in Hconn.
    repeat (destruct Hconn as [Hconn|Hconn]; try discriminate Hconn). exact Hconn.
  - exfalso. cbn in Hconn.
    repeat (destruct Hconn as [Hconn|Hconn]; try discriminate Hconn). exact Hconn.
  - exfalso.
    apply in_app_or in Hconn. destruct Hconn as [Hconn|Hconn];
      [cbn in Hconn;
       repeat (destruct Hconn as [Hconn|Hconn]; try discriminate Hconn); exact Hconn|].
    apply in_app_or in Hconn. destruct Hconn as [Hconn|Hconn];
      [cbn in Hconn;
       repeat (destruct Hconn as [Hconn|Hconn]; try discriminate Hconn); exact Hconn|].
    apply in_app_or in Hconn. destruct Hconn as [Hconn|Hconn];
      [exact (@polling_no_line R 10%nat polls _ _ Hp Hconn)|].
    cbn in Hconn.
    repeat (destruct Hconn as [Hconn|Hconn]; try discriminate Hconn). exact Hconn.
  - left.
    destruct (run_rounds_local env true v (mkLocal (waits st) (role_error env c)))
      as (rest & Hr & Hl).
    rewrite Hr in Hconn.
    assert (Hpv : p = v).
    { apply in_app_or in Hconn. destruct Hconn as [Hconn|Hconn].
      - exfalso.
        apply in_app_or in Hconn. destruct Hconn as [Hconn|Hconn];
          [cbn in Hconn;
           repeat (destruct Hconn as [Hconn|Hconn]; try discriminate Hconn);
           exact Hconn|].
        apply in_app_or in Hconn. destruct Hconn as [Hconn|Hconn];
          [cbn in Hconn;
           repeat (destruct Hconn as [Hconn|Hconn]; try discriminate Hconn);
           exact Hconn|].
        apply in_app_or in Hconn. destruct Hconn as [Hconn|Hconn];
          [exact (@polling_no_line R 10%nat polls _ _ Hp Hconn)|].
        cbn in Hconn.
        repeat (destruct Hconn as [Hconn|Hconn]; try discriminate Hconn). exact Hconn.
      - destruct Hconn as [Hconn|Hconn].
        + now injection Hconn.
        + exfalso.
          exact (@not_in_local rest (connected_line p) Hl eq_refl Hconn). }
    subst p.
    assert (Hc : c = CreatedFresh).
    { rewrite (Hrole o Hv) in Hne. clear Hr Hl Hconn.
      destruct c as [| |e]; [reflexivity| |discriminate Hok].
      exfalso. apply Hne. reflexivity. }
    subst c. split; [reflexivity|]. split; [|auto].
    unfold negotiated_as_server. cbn [prepend calls].
    repeat split.
    + apply in_or_app. left. apply in_or_app. left. now left.
    + apply in_or_app. left. apply in_or_app. right. now left.
    + apply in_or_app. left. apply in_or_app. right. right. now left.
    + apply in_or_app. left. apply in_or_app. right. right. right. now left.
    + apply in_or_app. left. apply in_or_app. right.
      apply in_or_app. right. apply in_or_app. right. now left.
  - right.
    destruct (run_rounds_local env false v (mkLocal (waits st) (role_error env c)))
      as (rest & Hr & Hl).
    rewrite Hr in Hconn.
    assert (Hpv : p = v).
    { apply in_app_or in Hconn. destruct Hconn as [Hconn|Hconn].
      - exfalso.
        apply in_app_or in Hconn. destruct Hconn as [Hconn|Hconn];
          cbn in Hconn;
          repeat (destruct Hconn as [Hconn|Hconn]; try discriminate Hconn);
          exact Hconn.
      - destruct Hconn as [Hconn|Hconn].
        + now injection Hconn.
        + exfalso.
          exact (@not_in_local rest (connected_line p) Hl eq_refl Hconn). }
    subst p.
    assert (Hc : c = OpenedExisting).
    { rewrite (Hrole o Hv) in Heq. clear Hr Hl Hconn.
      destruct c as [| |e]; [discriminate Heq|reflexivity|discriminate Hok]. }
    subst c. split; [reflexivity|]. split; [|assumption].
    unfold negotiated_as_client. cbn [prepend calls].
    repeat split.
    + apply in_or_app. left. apply in_or_app. left. now left.
    + apply in_or_app. left. apply in_or_app. right. now left.
    + apply in_or_app. left. apply in_or_app. right. right. now left.
    + apply in_or_app. left. apply in_or_app. right. right. right. now left.
Qed.

Lemma pair_invariant_readable s c f v :
  readable (pair_invariant s c) f v ->
  match f with
  | F_server_pid => v = 0 \/ v = s
  | F_client_pid => v = 0 \/ v = c
  end.
Proof.
  intros (kern & (_ & Hs & Hc) & <-). destruct f; cbn; assumption.
Qed.

Lemma pair_invariant_reads s c f kern :
  pair_invariant s c kern ->
  readable (pair_invariant s c) f (fst (k_load f kern)).
Proof. intros HI. exists kern. auto. Qed.

Lemma pair_invariant_create s c fails kern :
  pair_invariant s c kern ->
  pair_invariant s c (snd (k_create fails kern)) /\
  fst (k_create fails kern) <> CreatedFresh.
Proof.
  intros HI. unfold k_create. destruct fails as [e|]; cbn.
  - split; [assumption|discriminate].
  - destruct HI as (He & Hs & Hc). rewrite He. cbn.
    split; [now repeat split|discriminate].
Qed.

Lemma role_error_created env c :
  leaves_last_error env -> role_error env c = created_error c.
Proof.
  intros Hleave. unfold role_error.
  destruct (map_view env) as [e|[e|]] eqn:Hv; try reflexivity.
  now destruct (Hleave e).
Qed.

(** The process that takes the first step creates the mapping. *)
Lemma creator_first envA envB argvA argvB stA stB sched rA rB kern pA pB :
  leaves_last_error envA -> leaves_last_error envB ->
  is_speed argvA -> is_speed argvB ->
  run_pair (true :: sched) (main envA argvA stA) (main envB argvB stB) no_mapping
  = (Done rA, Done rB, kern) ->
  connected rA pA -> connected rB pB ->
  negotiated_as_server envA rA pA /\ negotiated_as_client envB rB pB /\
  pA = own_pid envB /\ (pB = own_pid envA \/ pB = 0).
Proof.
  intros LA LB SA SB Hrun CA CB.
  destruct (main_speed envB stB SB) as [kB HkB].
  cbn [run_pair] in Hrun.
  destruct (create_error envA) as [e|] eqn:HcA.
  - (* the creation fails: no connection *)
    exfalso.
    assert (HsA : safe (fun _ => True)
                       (main_outcome anything envA stA
                          (fst (k_create (create_error envA) no_mapping)))
                       (fst (step (main envA argvA stA) no_mapping))).
    { apply main_after_create; try assumption.
      - intros; exact Logic.I.
      - intros _ _. split; intros ? _; exact Logic.I.
      - intros _ _ ? _; exact Logic.I. }
    destruct (run_pair_safe sched
                (snd (step (main envA argvA stA) no_mapping))
                HsA (safe_always (main envB argvB stB)) Logic.I)
      as (HA & _ & _).
    rewrite Hrun in HA. cbn [fst snd] in HA. apply safe_done_inv in HA.
    rewrite HcA in HA. cbn [k_create fst] in HA.
    destruct (@outcome_connected _ _ _ _ _ _ HA LA CA) as [(Hc & _)|(Hc & _)]; discriminate Hc.
  - (* the mapping is created *)
    set (I := pair_invariant (own_pid envA) (own_pid envB)).
    assert (Hfresh : fst (k_create (create_error envA) no_mapping) = CreatedFresh)
      by (rewrite HcA; reflexivity).
    assert (HsA : safe I
                       (main_outcome (readable I) envA stA
                          (fst (k_create (create_error envA) no_mapping)))
                       (fst (step (main envA argvA stA) no_mapping))).
    { apply main_after_create; try assumption.
      - intros f k Hk. now apply pair_invariant_reads.
      - intros _ _. split; intros k (He & Hs & Hc); cbn; repeat split; auto.
      - intros _ Hrl. exfalso. rewrite Hfresh in Hrl.
        rewrite (role_error_created CreatedFresh LA) in Hrl. discriminate Hrl. }
    assert (HsB : safe I
                       (fun r => exists c, c <> CreatedFresh /\
                                           main_outcome (readable I) envB stB c r)
                       (main envB argvB stB)).
    { rewrite HkB. apply safe_atomic.
      - intros k Hk. now apply pair_invariant_create.
      - intros k Hk.
        destruct (pair_invariant_create (create_error envB) Hk) as [_ Hnf].
        assert (H : safe I
                         (main_outcome (readable I) envB stB
                            (fst (k_create (create_error envB) k)))
                         (fst (step (main envB argvB stB) k))).
        { apply main_after_create; try assumption.
          - intros f k' Hk'. now apply pair_invariant_reads.
          - intros Hok Hrl. exfalso.
            rewrite (role_error_created _ LB) in Hrl.
            destruct (fst (k_create (create_error envB) k));
              [now apply Hnf|now apply Hrl|discriminate Hok].
          - intros _ _ k' (He & Hs & Hc); cbn; repeat split; auto. }
        rewrite HkB in H. cbn [step fst] in H.
        eapply safe_mono; [|exact H]. intros r Hr. eauto. }
    assert (HI : I (snd (step (main envA argvA stA) no_mapping))).
    { destruct (main_speed envA stA SA) as [kA HkA]. rewrite HkA.
      cbn [step snd]. rewrite HcA. cbn. unfold I, pair_invariant. cbn. auto. }
    destruct (run_pair_safe sched _ HsA HsB HI) as (HA & HB & _).
    rewrite Hrun in HA, HB. cbn [fst snd] in HA, HB.
    apply safe_done_inv in HA. apply safe_done_inv in HB.
    rewrite Hfresh in HA.
    destruct HB as (cB & HcB & HB).
    destruct (@outcome_connected _ _ _ _ _ _ HA LA CA) as [(_ & HnA & HrA & HzA)|(Hc & _)];
      [|discriminate Hc].
    destruct (@outcome_connected _ _ _ _ _ _ HB LB CB) as [(Hc & _)|(_ & HnB & HrB)];
      [contradiction|].
    apply pair_invariant_readable in HrA. apply pair_invariant_readable in HrB.
    cbn in HrA, HrB.
    split; [assumption|]. split; [assumption|].
    split; [destruct HrA; [contradiction|assumption]|].
    destruct HrB; auto.
Qed.

(** C3, as the code has it.  Two processes start when the mapping does
    not exist, [MapViewOfFile] leaves the last-error value alone in both,
    and both announce a connection.  Then the calls of one of them show
    the server role: it created the mapping, announced the server role,
    wrote its own id into [server_pid] and zero into [client_pid], and
    the partner id it announces is the value it read from [client_pid],
    which is the id of the other process.  The calls of the other show the
    client role: it opened the existing mapping, announced the client
    role, wrote its own id into [client_pid], and the partner id it
    announces is the value it read from [server_pid]; that value is the
    id of the server, or zero when the read came before the server's
    write. *)
Theorem negotiation_of_two_processes
        (envA envB : Env) (argvA argvB : list string) (stA stB : Local)
        (sched : list bool) (rA rB : Res Z) (kern : Kernel) (pA pB : DWORD) :
  leaves_last_error envA -> leaves_last_error envB ->
  run_pair sched (main envA argvA stA) (main envB argvB stB) no_mapping
  = (Done rA, Done rB, kern) ->
  connected rA pA -> connected rB pB ->
  (negotiated_as_server envA rA pA /\ negotiated_as_client envB rB pB /\
   pA = own_pid envB /\ (pB = own_pid envA \/ pB = 0)) \/
  (negotiated_as_server envB rB pB /\ negotiated_as_client envA rA pA /\
   pB = own_pid envA /\ (pA = own_pid envB \/ pA = 0)).
Proof.
  intros LA LB Hrun CA CB.
  assert (SA : is_speed argvA).
  { destruct (is_speed_dec argvA) as [H|H]; [assumption|exfalso].
    rewrite (main_usage envA stA H) in Hrun.
    pose proof (run_pair_done_left sched
                  (mkRes [usage_line] (Returned EXIT_SUCCESS) stA)
                  (main envB argvB stB) no_mapping) as Hd.
    rewrite Hrun in Hd. cbn [fst] in Hd. injection Hd as ->.
    unfold connected in CA. cbn in CA. destruct CA as [CA|[]]. discriminate CA. }
  assert (SB : is_speed argvB).
  { destruct (is_speed_dec argvB) as [H|H]; [assumption|exfalso].
    rewrite (main_usage envB stB H) in Hrun.
    pose proof (run_pair_done_right sched (main envA argvA stA)
                  (mkRes [usage_line] (Returned EXIT_SUCCESS) stB)
                  no_mapping) as Hd.
    rewrite Hrun in Hd. cbn [fst snd] in Hd. injection Hd as ->.
    unfold connected in CB. cbn in CB. destruct CB as [CB|[]]. discriminate CB. }
  destruct sched as [|[|] sched].
  - exfalso. destruct (main_speed envA stA SA) as [kA HkA].
    cbn [run_pair] in Hrun. rewrite HkA in Hrun.
    apply (f_equal (fun x => fst (fst x))) in Hrun. cbn [fst] in Hrun.
    discriminate Hrun.
  - left.
    exact (@creator_first envA envB argvA argvB stA stB sched rA rB kern pA pB
                          LA LB SA SB Hrun CA CB).
  - right.
    pose proof (run_pair_swap (false :: sched) (main envA argvA stA)
                  (main envB argvB stB) no_mapping) as Hsw.
    rewrite Hrun in Hsw. cbn [fst snd map negb] in Hsw.
    exact (@creator_first envB envA argvB argvA stB stA (map negb sched)
                          rB rA kern pB pA LB LA SB SA Hsw CB CA).
Qed.

(** ** Two concrete interleavings *)

Lemma in_firstn {A} (n : nat) (x : A) : forall l, In x (firstn n l) -> In x l.
Proof.
  induction n as [|n IH]; intros [|a l]; cbn; try tauto.
  intros [H|H]; [now left|right; now apply IH].
Qed.

Lemma done_result {A} (p : Proc A) (d : A) :
  is_done p = true -> p = Done (result_of p d).
Proof. destruct p; [reflexivity|discriminate]. Qed.

Lemma pair_run_finished sched :
  is_done (fst (fst (pair_run sched))) = true ->
  is_done (snd (fst (pair_run sched))) = true ->
  pair_run sched =
  (Done (first_result sched), Done (second_result sched), snd (pair_run sched)).
Proof.
  intros H1 H2. unfold first_result, second_result.
  rewrite <- (done_result _ _ H1), <- (done_result _ _ H2).
  now destruct (pair_run sched) as [[p q] k].
Qed.

Lemma negotiation_of_two_processes_witness :
  leaves_last_error first_env /\ leaves_last_error second_env /\
  run_pair orderly_schedule (main first_env speed_argv no_events)
           (main second_env speed_argv no_events) no_mapping
  = (Done (first_result orderly_schedule),
     Done (second_result orderly_schedule),
     snd (pair_run orderly_schedule)) /\
  connected (first_result orderly_schedule) 200 /\
  connected (second_result orderly_schedule) 100 /\
  ((negotiated_as_server first_env (first_result orderly_schedule) 200 /\
    negotiated_as_client second_env (second_result orderly_schedule) 100 /\
    200 = own_pid second_env /\ (100 = own_pid first_env \/ 100 = 0)) \/
   (negotiated_as_server second_env (second_result orderly_schedule) 100 /\
    negotiated_as_client first_env (first_result orderly_schedule) 200 /\
    100 = own_pid first_env /\ (200 = own_pid second_env \/ 200 = 0))).
Proof.
  assert (LA : leaves_last_error first_env) by (intros e; discriminate).
  assert (LB : leaves_last_error second_env) by (intros e; discriminate).
  assert (Hrun : run_pair orderly_schedule (main first_env speed_argv no_events)
                          (main second_env speed_argv no_events) no_mapping
                 = (Done (first_result orderly_schedule),
                    Done (second_result orderly_schedule),
                    snd (pair_run orderly_schedule))).
  { apply (pair_run_finished orderly_schedule); vm_compute; reflexivity. }
  assert (CA : connected (first_result orderly_schedule) 200).
  { apply (in_firstn 8). vm_compute. do 7 right. left. reflexivity. }
  assert (CB : connected (second_result orderly_schedule) 100).
  { apply (in_firstn 6). vm_compute. do 5 right. left. reflexivity. }
  split; [exact LA|]. split; [exact LB|]. split; [exact Hrun|].
  split; [exact CA|]. split; [exact CB|].
  exact (@negotiation_of_two_processes
           first_env second_env speed_argv speed_argv no_events no_events
           orderly_schedule _ _ _ 200 100 LA LB Hrun CA CB).
Defined.

(** C3 as stated does not hold.  Let the second process open the mapping
    and read [server_pid] right after the first process has created it,
    before the first process writes its id.  Both processes announce a
    connection, the first as server with partner 200, the second as client
    with partner 0, which is not the id of the server. *)
Lemma negotiation_claim_fails_when_client_reads_early :
  let rA := first_result early_read_schedule in
  let rB := second_result early_read_schedule in
  pair_run early_read_schedule = (Done rA, Done rB, snd (pair_run early_read_schedule)) /\
  firstn 8 (calls rA) =
    [CallCreateFileMappingA kSharedMappingName sizeof_SharedData CreatedFresh;
     CallMapViewOfFile sizeof_SharedData true;
     role_line true 100; Store F_server_pid 100; Store F_client_pid 0;
     Load F_client_pid 200; Load F_client_pid 200; connected_line 200] /\
  firstn 6 (calls rB) =
    [CallCreateFileMappingA kSharedMappingName sizeof_SharedData OpenedExisting;
     CallMapViewOfFile sizeof_SharedData true;
     role_line false 200; Load F_server_pid 0; Store F_client_pid 200;
     connected_line 0] /\
  connected rA 200 /\ connected rB 0 /\ own_pid first_env <> 0 /\
  ~ negotiation_claim.
Proof.
  intros rA rB.
  assert (LA : leaves_last_error first_env) by (intros e; discriminate).
  assert (LB : leaves_last_error second_env) by (intros e; discriminate).
  assert (Hrun : pair_run early_read_schedule
                 = (Done rA, Done rB, snd (pair_run early_read_schedule))).
  { apply (pair_run_finished early_read_schedule); vm_compute; reflexivity. }
  assert (HA : firstn 8 (calls rA) =
    [CallCreateFileMappingA kSharedMappingName sizeof_SharedData CreatedFresh;
     CallMapViewOfFile sizeof_SharedData true;
     role_line true 100; Store F_server_pid 100; Store F_client_pid 0;
     Load F_client_pid 200; Load F_client_pid 200; connected_line 200])
    by (vm_compute; reflexivity).
  assert (HB : firstn 6 (calls rB) =
    [CallCreateFileMappingA kSharedMappingName sizeof_SharedData OpenedExisting;
     CallMapViewOfFile sizeof_SharedData true;
     role_line false 200; Load F_server_pid 0; Store F_client_pid 200;
     connected_line 0])
    by (vm_compute; reflexivity).
  assert (CA : connected rA 200).
  { apply (in_firstn 8). rewrite HA. do 7 right. left. reflexivity. }
  assert (CB : connected rB 0).
  { apply (in_firstn 6). rewrite HB. do 5 right. left. reflexivity. }
  split; [exact Hrun|]. split; [exact HA|]. split; [exact HB|].
  split; [exact CA|]. split; [exact CB|]. split; [discriminate|].
  intros Hclaim.
  destruct (Hclaim first_env second_env speed_argv speed_argv no_events no_events
                   early_read_schedule rA rB _ 200 0 LA LB Hrun CA CB)
    as [(_ & _ & _ & H)|(_ & _ & H & _)]; discriminate H.
Qed.

(** * Further properties *)

(** ** The count as a function of the events *)

Lemma sentinelb_spec ev : sentinelb ev = true <-> is_sentinel_event ev.
Proof.
  unfold sentinelb, is_sentinel_event.
  rewrite !andb_true_iff, !Z.eqb_eq, Z.leb_le. tauto.
Qed.

Lemma count_event_sentinelb c ev it :
  0 <= c -> c < it -> it <= INT_MAX ->
  count_event c ev = c + (if sentinelb ev then 1 else 0).
Proof.
  intros H0 Hlt Hmax.
  assert (Hr : int_range c) by (unfold int_range, INT_MIN, INT_MAX in *; lia).
  destruct (count_event_step ev Hr Hlt Hmax) as [Hyes Hno].
  destruct (sentinelb ev) eqn:Hs.
  - apply Hyes. now apply sentinelb_spec.
  - rewrite Hno; [lia|]. intros H. apply sentinelb_spec in H. congruence.
Qed.

Lemma sentinels_nonneg ws : 0 <= sentinels_before_failure ws.
Proof.
  induction ws as [|[ev|e] ws IH]; cbn; try lia.
  destruct (sentinelb ev); lia.
Qed.

Lemma count_loop_min role it err ws : forall c,
  it <= INT_MAX -> 0 <= c <= it ->
  loop_count (count_loop role it c ws err)
  = Z.min it (c + sentinels_before_failure ws).
Proof.
  induction ws as [|[ev|e] ws IH]; intros c Hmax Hc;
    (destruct (Z.lt_ge_cases c it) as [Hlt|Hge];
     [|rewrite !count_loop_done by lia; loop_simpl;
       match goal with
       | |- _ = Z.min _ (_ + sentinels_before_failure ?l) =>
           pose proof (sentinels_nonneg l)
       end; lia]).
  - rewrite count_loop_empty by assumption. loop_simpl. cbn. lia.
  - rewrite count_loop_event by assumption. loop_simpl.
    pose proof (@count_event_sentinelb c ev it (proj1 Hc) Hlt Hmax) as He.
    rewrite IH by (try assumption; destruct (sentinelb ev); lia).
    rewrite He. cbn [sentinels_before_failure]. f_equal. lia.
  - rewrite count_loop_fail by assumption. loop_simpl. cbn. lia.
Qed.

(** X1: for a target between zero and [INT_MAX], the counter after any
    sequence of answers is the smaller of the target and the number of
    events that pass the test of lines 59-62 before the first failed
    wait, and the loop is left through its condition exactly when that
    number reaches the target. *)
Theorem count_is_min_of_target_and_sentinels
        (role : string_view) (iterations : Z) (ws : list WaitResult) :
  0 <= iterations <= INT_MAX ->
  loop_count (loop_after role iterations ws)
  = Z.min iterations (sentinels_before_failure ws) /\
  (loop_exit (loop_after role iterations ws) = TargetReached <->
   iterations <= sentinels_before_failure ws).
Proof.
  intros Hit. unfold loop_after.
  assert (Hc : loop_count (count_loop role iterations 0 ws 0)
               = Z.min iterations (sentinels_before_failure ws)).
  { rewrite count_loop_min by lia. reflexivity. }
  split; [exact Hc|].
  pose proof (count_loop_exits role iterations 0 ws 0) as H. cbv zeta in H.
  rewrite Hc in H.
  destruct (loop_exit (count_loop role iterations 0 ws 0));
    destruct H as [H _]; split; intros; try discriminate; try reflexivity; lia.
Qed.

Lemma count_is_min_of_target_and_sentinels_witness :
  let role := mkView 0 "Client" in
  let hit := mkEvent 1 10 11 (mkInfo (mkRecord 0x1337 0 2 [4096; 14]) 1) in
  let miss := mkEvent 1 10 11 (mkInfo (mkRecord 0x1337 0 1 [4096]) 1) in
  let ws := [WaitOk hit; WaitOk miss; WaitOk hit; WaitFail 6; WaitOk hit] in
  0 <= 5 <= INT_MAX /\
  (loop_count (loop_after role 5 ws) = Z.min 5 (sentinels_before_failure ws) /\
   (loop_exit (loop_after role 5 ws) = TargetReached <->
    5 <= sentinels_before_failure ws)).
Proof.
  intros role hit miss ws.
  split; [unfold INT_MAX; lia|].
  apply (@count_is_min_of_target_and_sentinels role 5 ws). unfold INT_MAX; lia.
Defined.

(** ** Where the loop stops *)

Lemma count_loop_stops role it err ev rest pre : forall c,
  it <= INT_MAX -> 0 <= c ->
  all_events pre ->
  c + sentinels_before_failure pre = it - 1 ->
  sentinelb ev = true ->
  count_loop role it c (pre ++ WaitOk ev :: rest) err =
  mkLoop (event_calls (pre ++ [WaitOk ev])) it TargetReached (mkLocal rest err).
Proof.
  induction pre as [|w pre IH]; intros c Hmax H0 Hall Hsum Hs.
  - cbn in Hsum. cbn [app event_calls].
    rewrite count_loop_event by lia. loop_simpl.
    rewrite (@count_event_sentinelb c ev it) by lia. rewrite Hs.
    rewrite count_loop_done by lia. loop_simpl. f_equal. lia.
  - inversion Hall as [|? ? [ev' ->] Hall']; subst.
    cbn [sentinels_before_failure] in Hsum.
    pose proof (sentinels_nonneg pre) as Hn.
    assert (Hlt : c < it) by (destruct (sentinelb ev'); lia).
    cbn [app event_calls]. rewrite count_loop_event by assumption. loop_simpl.
    rewrite (@count_event_sentinelb c ev' it) by lia.
    rewrite IH; try assumption; try reflexivity;
      destruct (sentinelb ev'); lia.
Qed.

(** X2: when the events delivered contain no failed wait and one event
    short of the target passes the test, the next event that passes it
    ends the loop: the loop acknowledges that event, the counter equals
    the target, and every later answer is left unconsumed. *)
Theorem loop_stops_at_the_target_event
        (role : string_view) (iterations : Z) (pre rest : list WaitResult)
        (ev : DEBUG_EVENT) :
  iterations <= INT_MAX ->
  all_events pre ->
  sentinels_before_failure pre = iterations - 1 ->
  sentinelb ev = true ->
  loop_after role iterations (pre ++ WaitOk ev :: rest) =
  mkLoop (event_calls (pre ++ [WaitOk ev])) iterations TargetReached
         (mkLocal rest 0).
Proof.
  intros Hmax Hall Hsum Hs. unfold loop_after.
  apply count_loop_stops; try assumption; lia.
Qed.

Lemma loop_stops_at_the_target_event_witness :
  let role := mkView 0 "Client" in
  let hit := mkEvent 1 10 11 (mkInfo (mkRecord 0x1337 0 2 [4096; 14]) 1) in
  let other := mkEvent 3 10 11 (mkInfo (mkRecord 0 0 0 []) 0) in
  let pre := [WaitOk other; WaitOk hit] in
  let rest := [WaitOk hit; WaitFail 6] in
  2 <= INT_MAX /\ all_events pre /\
  sentinels_before_failure pre = 2 - 1 /\ sentinelb hit = true /\
  loop_after role 2 (pre ++ WaitOk hit :: rest) =
  mkLoop (event_calls (pre ++ [WaitOk hit])) 2 TargetReached (mkLocal rest 0).
Proof.
  intros role hit other pre rest.
  assert (Hall : all_events pre) by (repeat constructor; eexists; reflexivity).
  split; [unfold INT_MAX; lia|]. split; [exact Hall|].
  split; [reflexivity|]. split; [reflexivity|].
  apply (@loop_stops_at_the_target_event role 2 pre rest hit);
    [unfold INT_MAX; lia|exact Hall|reflexivity|reflexivity].
Defined.

(** ** What the loop does not look at *)

Lemma count_event_alike c ev ev' :
  alike (WaitOk ev) (WaitOk ev') -> count_event c ev = count_event c ev'.
Proof.
  intros (Hk & Hc & Hn). unfold count_event. now rewrite Hk, Hc, Hn.
Qed.

Lemma count_loop_alike role role' it err err' ws ws' :
  Forall2 alike ws ws' ->
  forall c,
    loop_count (count_loop role it c ws err) =
    loop_count (count_loop role' it c ws' err') /\
    loop_exit (count_loop role it c ws err) =
    loop_exit (count_loop role' it c ws' err').
Proof.
  induction 1 as [|w w' ws ws' Hw Hws IH]; intros c;
    (destruct (Z.lt_ge_cases c it) as [Hlt|Hge];
     [|rewrite !count_loop_done by lia; auto]).
  - rewrite !count_loop_empty by assumption. auto.
  - destruct w as [ev|e], w' as [ev'|e']; try contradiction.
    + rewrite !count_loop_event by assumption. loop_simpl.
      rewrite (count_event_alike c Hw). apply IH.
    + rewrite !count_loop_fail by assumption. auto.
Qed.

(** X3: the counter and the way the loop ends depend on an event only
    through its event code, its exception code and its number of
    parameters.  The parameters themselves (the address and the length of
    the payload), the process and thread ids, the first-chance flag, the
    error code of a failed wait and the name of the role do not matter. *)
Theorem loop_ignores_payload_and_ids
        (role role' : string_view) (iterations : Z) (ws ws' : list WaitResult) :
  Forall2 alike ws ws' ->
  loop_count (loop_after role iterations ws) =
  loop_count (loop_after role' iterations ws') /\
  loop_exit (loop_after role iterations ws) =
  loop_exit (loop_after role' iterations ws').
Proof. intros H. unfold loop_after. now apply count_loop_alike. Qed.

Lemma loop_ignores_payload_and_ids_witness :
  let a := mkEvent 1 10 11 (mkInfo (mkRecord 0x1337 0 2 [4096; 14]) 1) in
  let b := mkEvent 1 77 78 (mkInfo (mkRecord 0x1337 1 2 [0; 0]) 0) in
  let ws := [WaitOk a; WaitFail 5] in
  let ws' := [WaitOk b; WaitFail 6] in
  Forall2 alike ws ws' /\
  (loop_count (loop_after (mkView 0 "Client") 3 ws) =
   loop_count (loop_after (mkView 0 "Server") 3 ws') /\
   loop_exit (loop_after (mkView 0 "Client") 3 ws) =
   loop_exit (loop_after (mkView 0 "Server") 3 ws')).
Proof.
  intros a b ws ws'.
  assert (H : Forall2 alike ws ws').
  { constructor; [cbn; auto|]. constructor; [exact Logic.I|constructor]. }
  split; [exact H|].
  exact (@loop_ignores_payload_and_ids _ _ 3 ws ws' H).
Defined.

(** ** Detaching *)

Lemma count_loop_loop_calls role it err ws : forall c,
  Forall (fun x => loop_call x = true) (loop_calls (count_loop role it c ws err)).
Proof.
  induction ws as [|[ev|e] ws IH]; intros c;
    (destruct (Z.lt_ge_cases c it) as [Hlt|Hge];
     [|rewrite !count_loop_done by lia; constructor]).
  - rewrite count_loop_empty by assumption. repeat constructor.
  - rewrite count_loop_event by assumption. loop_simpl.
    repeat constructor. apply IH.
  - rewrite count_loop_fail by assumption. repeat constructor.
Qed.

Lemma DebugPartnerProcess_post env pid role it st :
  attach_error env = None ->
  loop_exit (count_loop role it 0 (waits st) (last_error st)) <> StillWaiting ->
  waits (post (DebugPartnerProcess env pid role it st)) =
  waits (loop_post (count_loop role it 0 (waits st) (last_error st))).
Proof.
  intros Ha Hx.
  unfold DebugPartnerProcess, bind, print, emit, DebugActiveProcess,
    DebugActiveProcessStop, count_events, GetLastError, SetLastError.
  rewrite Ha. cbn.
  destruct (loop_exit _); cbn; try (now destruct Hx);
    destruct (detach_error env); reflexivity.
Qed.

(** X4: [DebugPartnerProcess] calls [DebugActiveProcessStop] exactly when
    it attached and its loop ended, and then exactly once, after every
    other call; whether the detach succeeds or fails it only writes a
    line and returns.  When the attach failed or the loop stays in its
    wait, it never detaches. *)
Theorem detaches_once_after_the_loop
        (env : Env) (pid : DWORD) (role : string_view) (iterations : Z)
        (st : Local) :
  let r := DebugPartnerProcess env pid role iterations st in
  match attach_error env, loop_exit (loop_after role iterations (waits st)) with
  | None, TargetReached | None, WaitFailed =>
      val r = Returned tt /\
      exists pre,
        calls r = pre ++ detach_calls env role pid /\
        Forall (fun x => stopb x = false) pre /\
        List.length (filter stopb (detach_calls env role pid)) = 1%nat
  | _, _ => Forall (fun x => stopb x = false) (calls r)
  end.
Proof.
  intros r. unfold r. clear r.
  destruct (attach_error env) as [e|] eqn:Ha.
  - rewrite (@DebugPartnerProcess_not_attached env pid role iterations st e Ha).
    repeat constructor.
  - destruct (@DebugPartnerProcess_attached env pid role iterations st Ha)
      as [Hc Hv].
    cbv zeta in Hc, Hv. rewrite Hc, Hv. unfold loop_after.
    destruct (count_loop_err role iterations (waits st) 0 (last_error st) 0)
      as (_ & _ & He & _).
    rewrite <- He.
    assert (Hl : Forall (fun x => stopb x = false)
                        (loop_calls (count_loop role iterations 0 (waits st)
                                                (last_error st)))).
    { eapply Forall_impl; [|apply count_loop_loop_calls].
      intros x Hx. destruct x; try discriminate Hx; reflexivity. }
    assert (Hd : List.length (filter stopb (detach_calls env role pid)) = 1%nat)
      by (unfold detach_calls; destruct (detach_error env); reflexivity).
    destruct (loop_exit _).
    + split; [reflexivity|].
      exists (attaching_message role pid :: CallDebugActiveProcess pid true ::
              loop_calls (count_loop role iterations 0 (waits st) (last_error st))).
      split; [reflexivity|]. split; [|exact Hd].
      do 2 (constructor; [reflexivity|]). exact Hl.
    + split; [reflexivity|].
      exists (attaching_message role pid :: CallDebugActiveProcess pid true ::
              loop_calls (count_loop role iterations 0 (waits st) (last_error st))).
      split; [reflexivity|]. split; [|exact Hd].
      do 2 (constructor; [reflexivity|]). exact Hl.
    + do 2 (constructor; [reflexivity|]). rewrite app_nil_r. exact Hl.
Qed.

(** ** A sending round against a counting round *)

Lemma raised_events_app pid tid l1 l2 :
  raised_events pid tid (l1 ++ l2) =
  raised_events pid tid l1 ++ raised_events pid tid l2.
Proof.
  induction l1 as [|c l1 IH]; [reflexivity|]. cbn [app raised_events].
  destruct (raised_event pid tid c); cbn [app]; now rewrite IH.
Qed.

Lemma raised_events_repeat pid tid env message n :
  raised_events pid tid (repeat (raise_call env message) n) =
  repeat (WaitOk (mkEvent EXCEPTION_DEBUG_EVENT pid tid
                    (mkInfo (mkRecord kExceptionCommsCode 0 2
                               [to_ULONG_PTR (ptr_bits env) (sv_data message);
                                to_ULONG_PTR (ptr_bits env) (sv_size message + 1)])
                            1))) n.
Proof.
  induction n as [|n IH]; [reflexivity|].
  cbn [repeat raised_events raise_call raised_event]. now rewrite IH.
Qed.

Lemma raised_events_send_shape pid tid env banner report n :
  raised_events pid tid
    (CallSleep 3 :: Out cout banner :: CallClockNow ::
     repeat (raise_call env (literal env "hello, world!")) n ++
     [CallClockNow; Out cout report]) =
  repeat (WaitOk (mkEvent EXCEPTION_DEBUG_EVENT pid tid
                    (mkInfo (mkRecord kExceptionCommsCode 0 2
                               [to_ULONG_PTR (ptr_bits env)
                                             (sv_data (literal env "hello, world!"));
                                to_ULONG_PTR (ptr_bits env)
                                             (sv_size (literal env "hello, world!") + 1)])
                            1))) n.
Proof.
  cbn [raised_events raised_event].
  rewrite raised_events_app, raised_events_repeat.
  cbn [raised_events raised_event]. apply app_nil_r.
Qed.

Lemma raised_events_send_calls pid tid env banner who :
  raised_events pid tid (send_calls env banner who) =
  repeat (WaitOk (mkEvent EXCEPTION_DEBUG_EVENT pid tid
                    (mkInfo (mkRecord kExceptionCommsCode 0 2
                               [to_ULONG_PTR (ptr_bits env)
                                             (sv_data (literal env "hello, world!"));
                                to_ULONG_PTR (ptr_bits env)
                                             (sv_size (literal env "hello, world!") + 1)])
                            1))) (Z.to_nat kTestIterations).
Proof.
  exact (raised_events_send_shape pid tid env _ _ (Z.to_nat kTestIterations)).
Qed.

Lemma sentinels_repeat ev n :
  sentinelb ev = true ->
  sentinels_before_failure (repeat (WaitOk ev) n) = Z.of_nat n.
Proof.
  intros Hs. induction n as [|n IH]; [reflexivity|].
  cbn [repeat sentinels_before_failure]. rewrite Hs, IH. lia.
Qed.

Lemma all_events_repeat ev n : all_events (repeat (WaitOk ev) n).
Proof.
  apply Forall_forall. intros w Hw. apply repeat_spec in Hw. eauto.
Qed.

Lemma counting_the_events_of_a_round role err ev :
  sentinelb ev = true ->
  count_loop role kTestIterations 0
             (repeat (WaitOk ev) (Z.to_nat kTestIterations)) err =
  mkLoop (event_calls (repeat (WaitOk ev) (Z.to_nat kTestIterations)))
         kTestIterations TargetReached (mkLocal [] err).
Proof.
  intros Hs.
  assert (Hn : Z.to_nat kTestIterations = S (Z.to_nat (kTestIterations - 1))).
  { rewrite <- Z2Nat.inj_succ by (unfold kTestIterations; lia).
    f_equal; try lia. }
  rewrite Hn. remember (Z.to_nat (kTestIterations - 1)) as m eqn:Hm.
  assert (Hz : Z.of_nat m = kTestIterations - 1).
  { rewrite Hm. apply Z2Nat.id. unfold kTestIterations. lia. }
  clear Hn Hm.
  replace (repeat (WaitOk ev) (S m)) with (repeat (WaitOk ev) m ++ [WaitOk ev])
    by (symmetry; apply (repeat_cons m (WaitOk ev))).
  apply count_loop_stops.
  - unfold kTestIterations, INT_MAX. lia.
  - lia.
  - apply all_events_repeat.
  - rewrite (@sentinels_repeat ev m Hs). lia.
  - exact Hs.
Qed.

(** X5: one sending round feeds exactly one counting round.  If the
    events a debugger is handed are those of the exceptions that a sending
    round raises (round 1 of a server or round 2 of a client), in that
    order, then a [DebugPartnerProcess] that attaches counts up to
    [kTestIterations], returns, and leaves no event unconsumed. *)
Theorem a_sending_round_completes_a_counting_round
        (sender counter : Env) (is_server : bool) (partner pid tid : DWORD)
        (role : string_view) (st : Local) (e : DWORD) :
  attach_error counter = None ->
  let sent :=
    calls (if is_server then RunSpeedTestRound sender true partner st
           else RunSwapRoleRound sender false partner st) in
  let r := DebugPartnerProcess counter pid role kTestIterations
                               (mkLocal (raised_events pid tid sent) e) in
  sentinels_before_failure (raised_events pid tid sent) = kTestIterations /\
  loop_count (loop_after role kTestIterations (raised_events pid tid sent))
  = kTestIterations /\
  val r = Returned tt /\
  waits (post r) = [].
Proof.
  intros Ha sent r.
  set (ev := mkEvent EXCEPTION_DEBUG_EVENT pid tid
               (mkInfo (mkRecord kExceptionCommsCode 0 2
                          [to_ULONG_PTR (ptr_bits sender)
                                        (sv_data (literal sender "hello, world!"));
                           to_ULONG_PTR (ptr_bits sender)
                                        (sv_size (literal sender "hello, world!") + 1)])
                       1)).
  assert (Hs : sentinelb ev = true) by reflexivity.
  assert (Hev : raised_events pid tid sent
                = repeat (WaitOk ev) (Z.to_nat kTestIterations)).
  { unfold sent. destruct is_server.
    - rewrite round1_server. cbn [calls]. apply raised_events_send_calls.
    - rewrite round2_client. cbn [calls]. apply raised_events_send_calls. }
  unfold r. clear r. rewrite Hev. clear Hev sent.
  generalize (@counting_the_events_of_a_round role e ev Hs).
  generalize (@counting_the_events_of_a_round role 0 ev Hs).
  generalize (@sentinels_repeat ev (Z.to_nat kTestIterations) Hs).
  generalize (repeat (WaitOk ev) (Z.to_nat kTestIterations)).
  intros ws Hsum H0 He.
  split; [rewrite Hsum; apply Z2Nat.id; unfold kTestIterations; lia|].
  split; [unfold loop_after; now rewrite H0|].
  destruct (@DebugPartnerProcess_attached counter pid role kTestIterations
              (mkLocal ws e) Ha) as [_ Hv].
  cbv zeta in Hv. cbn [waits last_error] in Hv. rewrite He in Hv.
  cbn [loop_exit] in Hv.
  split; [exact Hv|].
  rewrite DebugPartnerProcess_post.
  - cbn [waits last_error]. rewrite He. reflexivity.
  - exact Ha.
  - cbn [waits last_error]. rewrite He. discriminate.
Qed.

Lemma a_sending_round_completes_a_counting_round_witness :
  let role := literal second_env "Client" in
  let sent := calls (RunSpeedTestRound first_env true 200 no_events) in
  attach_error second_env = None /\
  (sentinels_before_failure (raised_events 100 1 sent) = kTestIterations /\
   loop_count (loop_after role kTestIterations (raised_events 100 1 sent))
   = kTestIterations /\
   val (DebugPartnerProcess second_env 100 role kTestIterations
          (mkLocal (raised_events 100 1 sent) 0)) = Returned tt /\
   waits (post (DebugPartnerProcess second_env 100 role kTestIterations
                  (mkLocal (raised_events 100 1 sent) 0))) = []).
Proof.
  intros role sent.
  split; [reflexivity|].
  exact (@a_sending_round_completes_a_counting_round
           first_env second_env true 200 100 1 role no_events 0 eq_refl).
Defined.

(** ** Releasing the mapping *)

Lemma filter_none {A} (f : A -> bool) l :
  Forall (fun x => f x = false) l -> filter f l = [].
Proof.
  induction 1 as [|x l Hx Hl IH]; [reflexivity|]. cbn. now rewrite Hx.
Qed.

Lemma round1_keeps env is_server partner st :
  Forall keeps_mapping (calls (RunSpeedTestRound env is_server partner st)).
Proof.
  destruct is_server.
  - rewrite round1_server. cbn [calls].
    eapply Forall_impl; [|apply send_calls_sender].
    intros x Hx. destruct x; try discriminate Hx; repeat split.
  - rewrite round1_client. cbn [prepend calls app].
    constructor; [repeat split|].
    eapply Forall_impl; [|apply DebugPartnerProcess_debugger].
    intros x Hx. destruct x; try discriminate Hx; repeat split.
Qed.

Lemma round2_keeps env is_server partner st :
  Forall keeps_mapping (calls (RunSwapRoleRound env is_server partner st)).
Proof.
  destruct is_server.
  - rewrite round2_server. cbn [prepend calls app].
    constructor; [repeat split|].
    eapply Forall_impl; [|apply DebugPartnerProcess_debugger].
    intros x Hx. destruct x; try discriminate Hx; repeat split.
  - rewrite round2_client. cbn [calls].
    eapply Forall_impl; [|apply send_calls_sender].
    intros x Hx. destruct x; try discriminate Hx; repeat split.
Qed.

Lemma round1_val env is_server partner st :
  val (RunSpeedTestRound env is_server partner st) = Returned tt \/
  val (RunSpeedTestRound env is_server partner st) = Blocked.
Proof.
  destruct is_server.
  - rewrite round1_server. now left.
  - rewrite round1_client. cbn [prepend val]. rewrite DebugPartnerProcess_val.
    destruct (attach_error env); [now left|].
    destruct (loop_exit _); auto.
Qed.

Lemma round2_val env is_server partner st :
  val (RunSwapRoleRound env is_server partner st) = Returned tt \/
  val (RunSwapRoleRound env is_server partner st) = Blocked.
Proof.
  destruct is_server.
  - rewrite round2_server. cbn [prepend val]. rewrite DebugPartnerProcess_val.
    destruct (attach_error env); [now left|].
    destruct (loop_exit _); auto.
  - rewrite round2_client. now left.
Qed.

Lemma keeps_filters l :
  Forall keeps_mapping l ->
  filter closeb l = [] /\ filter unmapb l = [] /\ filter storeb l = [].
Proof.
  intros H. repeat split; apply filter_none;
    (eapply Forall_impl; [|exact H]); intros x (Hc & Hu & Hs); assumption.
Qed.

(** What the rounds release and write, and how they end. *)
Lemma run_rounds_release env is_server partner st :
  let rr := run_rounds env is_server partner st in
  filter storeb (calls rr) = [] /\
  ((val rr = Returned EXIT_SUCCESS /\
    filter closeb (calls rr) = [CallCloseHandle] /\
    filter unmapb (calls rr) = [CallUnmapViewOfFile]) \/
   (val rr = Blocked /\
    filter closeb (calls rr) = [] /\ filter unmapb (calls rr) = [])).
Proof.
  intros rr. unfold rr. clear rr.
  pose proof (run_rounds_sequence env is_server partner st) as H.
  cbv zeta in H. rewrite H. clear H.
  destruct (@keeps_filters _ (round1_keeps env is_server partner st))
    as (Hc1 & Hu1 & Hs1).
  destruct (@keeps_filters _
              (round2_keeps env is_server partner
                 (post (RunSpeedTestRound env is_server partner st))))
    as (Hc2 & Hu2 & Hs2).
  destruct (round1_val env is_server partner st) as [-> | ->];
    [destruct (round2_val env is_server partner
                 (post (RunSpeedTestRound env is_server partner st)))
       as [-> | ->]|];
    cbn [calls val filter storeb closeb unmapb connected_line];
    rewrite ?filter_app, ?Hc1, ?Hu1, ?Hs1, ?Hc2, ?Hu2, ?Hs2;
    (split; [reflexivity|]); [left|right|right]; repeat split.
Qed.

Lemma polling_keeps R n polls :
  polling R n polls ->
  filter closeb polls = [] /\ filter unmapb polls = [] /\ filter storeb polls = [].
Proof.
  intros Hp. destruct (polling_calls Hp) as [Hf _].
  repeat split; apply filter_none;
    (eapply Forall_impl; [|exact Hf]); intros x [->|[v ->]]; reflexivity.
Qed.

(** The releases and writes of a run, path by path. *)
Lemma outcome_release R env st c r :
  main_outcome R env st c r ->
  let closes := filter closeb (calls r) in
  let unmaps := filter unmapb (calls r) in
  let stores := filter storeb (calls r) in
  ((exists e, c = CreateFailed e) /\ val r = Returned EXIT_FAILURE /\
   ~ ran_as_server env r /\
   closes = [] /\ unmaps = [] /\ stores = []) \/
  (created_ok c = true /\ (exists e, map_view env = ViewFails e) /\
   val r = Returned EXIT_FAILURE /\ ~ ran_as_server env r /\
   closes = [CallCloseHandle] /\ unmaps = [] /\ stores = []) \/
  (created_ok c = true /\ (exists o, map_view env = ViewOk o) /\
   ran_as_server env r /\
   stores = [Store F_server_pid (own_pid env); Store F_client_pid 0] /\
   ((val r <> Blocked /\ closes = [CallCloseHandle] /\
     unmaps = [CallUnmapViewOfFile]) \/
    (val r = Blocked /\ closes = [] /\ unmaps = []))) \/
  (created_ok c = true /\ (exists o, map_view env = ViewOk o) /\
   ~ ran_as_server env r /\
   stores = [Store F_client_pid (own_pid env)] /\
   ((val r <> Blocked /\ closes = [CallCloseHandle] /\
     unmaps = [CallUnmapViewOfFile]) \/
    (val r = Blocked /\ closes = [] /\ unmaps = []))).
Proof.
  intros Hout closes unmaps stores.
  assert (Hclient : role_error env c = ERROR_ALREADY_EXISTS ->
                    created_ok c = true ->
                    (forall e, map_view env <> ViewFails e) ->
                    ~ ran_as_server env r)
    by exact (client_not_server Hout).
  unfold closes, unmaps, stores; clear closes unmaps stores.
  inversion Hout as [e Hc|e Hok Hv|o polls Hok Hv Hne Hp H0
                     |o polls v Hok Hv Hne Hp HR Hnz|o v Hok Hv Heq HR];
    subst r; clear Hout.
  - left. split; [eauto|]. split; [reflexivity|]. split; [|repeat split].
    intros Hin. unfold ran_as_server in Hin. cbn in Hin.
    repeat (destruct Hin as [Hin|Hin]; try discriminate Hin). exact Hin.
  - right; left. split; [assumption|]. split; [eauto|].
    split; [reflexivity|]. split; [|repeat split].
    intros Hin. unfold ran_as_server in Hin. cbn in Hin.
    repeat (destruct Hin as [Hin|Hin]; try discriminate Hin). exact Hin.
  - right; right; left. split; [assumption|]. split; [eauto|].
    destruct (polling_keeps Hp) as (Hpc & Hpu & Hps).
    cbn [calls val]. split.
    { unfold ran_as_server. cbn [calls]. apply in_or_app. right. now left. }
    rewrite !filter_app, Hpc, Hpu, Hps. clear Hclient.
    destruct c; [| |discriminate Hok];
      (split; [reflexivity|]); left;
      (split; [intro Hd; discriminate Hd|]); split; reflexivity.
  - right; right; left. split; [assumption|]. split; [eauto|].
    destruct (polling_keeps Hp) as (Hpc & Hpu & Hps).
    clear Hclient.
    pose proof (run_rounds_release env true v
                  (mkLocal (waits st) (role_error env c))) as Hrel.
    revert Hrel.
    generalize (run_rounds env true v (mkLocal (waits st) (role_error env c))).
    intros rr (Hrs & Hrel).
    cbn [prepend calls val]. split.
    { unfold ran_as_server. cbn [calls]. apply in_or_app. left.
      apply in_or_app. right. now left. }
    rewrite !filter_app, Hpc, Hpu, Hps, Hrs.
    destruct Hrel as [(Hval & Hcl & Hun)|(Hval & Hcl & Hun)];
      rewrite Hval, Hcl, Hun.
    + destruct c; [| |discriminate Hok];
        (split; [reflexivity|]); left;
        (split; [intro Hd; discriminate Hd|]); split; reflexivity.
    + destruct c; [| |discriminate Hok];
        (split; [reflexivity|]); right;
        (split; [reflexivity|]); split; reflexivity.
  - right; right; right. split; [assumption|]. split; [eauto|].
    assert (Hnot : forall e, map_view env <> ViewFails e)
      by (intros e He; congruence).
    specialize (Hclient Heq Hok Hnot).
    pose proof (run_rounds_release env false v
                  (mkLocal (waits st) (role_error env c))) as Hrel.
    revert Hrel Hclient.
    generalize (run_rounds env false v (mkLocal (waits st) (role_error env c))).
    intros rr (Hrs & Hrel) Hclient.
    split; [exact Hclient|]. clear Hclient.
    cbn [prepend calls val].
    rewrite !filter_app, Hrs.
    destruct Hrel as [(Hval & Hcl & Hun)|(Hval & Hcl & Hun)];
      rewrite Hval, Hcl, Hun.
    + destruct c; [| |discriminate Hok];
        (split; [reflexivity|]); left;
        (split; [intro Hd; discriminate Hd|]); split; reflexivity.
    + destruct c; [| |discriminate Hok];
        (split; [reflexivity|]); right;
        (split; [reflexivity|]); split; reflexivity.
Qed.

Lemma outcome_head R env st c r :
  main_outcome R env st c r ->
  hd_error (calls r) =
  Some (CallCreateFileMappingA kSharedMappingName sizeof_SharedData c).
Proof.
  intros Hout.
  inversion Hout as [e Hc|e Hok Hv|o polls Hok Hv Hne Hp H0
                     |o polls v Hok Hv Hne Hp HR Hnz|o v Hok Hv Heq HR];
    subst r; clear Hout; [reflexivity|reflexivity|reflexivity| |].
  - generalize (run_rounds env true v (mkLocal (waits st) (role_error env c))).
    intros rr. reflexivity.
  - generalize (run_rounds env false v (mkLocal (waits st) (role_error env c))).
    intros rr. reflexivity.
Qed.

Lemma outcome_role R env st c r o :
  main_outcome R env st c r ->
  created_ok c = true -> map_view env = ViewOk o ->
  (ran_as_server env r <-> role_error env c <> ERROR_ALREADY_EXISTS).
Proof.
  intros Hout Hok Hv.
  destruct (outcome_release Hout)
    as [([e He] & _)|[(_ & [e He] & _)|[(_ & _ & Hran & _)|(_ & _ & Hran & _)]]].
  - subst c. discriminate Hok.
  - congruence.
  - split; [|intros _; exact Hran]. intros _ He.
    apply (client_not_server Hout He Hok); [|exact Hran].
    intros e Hf. congruence.
  - split; [intros H; contradiction|]. intros Hne. exfalso.
    inversion Hout as [e Hc|e _ Hv'|o' polls _ _ _ Hp H0
                       |o' polls v _ _ _ Hp HR Hnz|o' v _ _ Heq HR];
      subst r; clear Hout.
    + subst c. discriminate Hok.
    + congruence.
    + apply Hran. unfold ran_as_server. cbn [calls].
      apply in_or_app. right. now left.
    + revert Hran.
      generalize (run_rounds env true v (mkLocal (waits st) (role_error env c))).
      intros rr Hran. apply Hran. unfold ran_as_server. cbn [prepend calls].
      apply in_or_app. left. apply in_or_app. right. now left.
    + contradiction.
Qed.

(** X6.  Line 156 alone decides the role, from the last-error value that
    is current after both set-up calls.  In a run that got past the set-up
    (the first call is the creation of the mapping, it gave a handle, and
    the view was mapped), the process announces the server role exactly
    when that value is not [ERROR_ALREADY_EXISTS]: when [MapViewOfFile]
    left a value of its own, that value decides, whether the mapping was
    created or opened; when it left none, the process is the server
    exactly when it created the mapping. *)
Theorem role_follows_the_last_error
        (env : Env) (argv : list string) (st : Local)
        (others : list (Kernel -> Kernel)) (kern : Kernel)
        (c : Created) (o : option DWORD) :
  let r := fst (run_main env argv st others kern) in
  hd_error (calls r) =
    Some (CallCreateFileMappingA kSharedMappingName sizeof_SharedData c) ->
  created_ok c = true ->
  map_view env = ViewOk o ->
  (ran_as_server env r <->
   match o with
   | Some e => e <> ERROR_ALREADY_EXISTS
   | None => c = CreatedFresh
   end).
Proof.
  intros r Hhd Hok Hv. unfold r in *. clear r.
  destruct (is_speed_dec argv) as [Hsp|Hsp].
  - destruct (run_main_outcome env st others kern Hsp) as [kern1 Hout].
    revert Hhd Hout.
    generalize (fst (run_main env argv st others kern)).
    generalize (fst (k_create (create_error env) kern1)).
    intros c0 r Hhd Hout.
    rewrite (outcome_head Hout) in Hhd. injection Hhd as ->.
    rewrite (outcome_role Hout Hok Hv).
    unfold role_error. rewrite Hv.
    destruct o as [e|]; [reflexivity|].
    destruct c; [| |discriminate Hok]; cbn; split; intros H;
      try reflexivity; try discriminate H;
      try (exfalso; apply H; reflexivity);
      try (intros Hd; discriminate Hd).
  - exfalso. unfold run_main in Hhd. rewrite (main_usage env st Hsp) in Hhd.
    discriminate Hhd.
Qed.

Lemma role_follows_the_last_error_witness :
  let env := mkEnv 64 100 (fun _ => 4096) None
                   (ViewOk (Some ERROR_ALREADY_EXISTS)) None None in
  let r := fst (run_main env speed_argv no_events [] no_mapping) in
  hd_error (calls r) =
    Some (CallCreateFileMappingA kSharedMappingName sizeof_SharedData
            CreatedFresh) /\
  created_ok CreatedFresh = true /\
  map_view env = ViewOk (Some ERROR_ALREADY_EXISTS) /\
  (ran_as_server env r <-> ERROR_ALREADY_EXISTS <> ERROR_ALREADY_EXISTS).
Proof.
  intros env r.
  assert (Hhd : hd_error (calls r) =
                Some (CallCreateFileMappingA kSharedMappingName
                        sizeof_SharedData CreatedFresh))
    by (vm_compute; reflexivity).
  split; [exact Hhd|]. split; [reflexivity|]. split; [reflexivity|].
  exact (@role_follows_the_last_error env speed_argv no_events [] no_mapping
           CreatedFresh (Some ERROR_ALREADY_EXISTS) Hhd eq_refl eq_refl).
Defined.

(** X7.  [main] releases what it obtained exactly once, unless it is held
    in a counting loop.  A run that is blocked in a wait has called neither
    [CloseHandle] nor [UnmapViewOfFile].  A run that returns has called
    [CloseHandle] once exactly when it was started with [speed] and the
    creation of the mapping gave a handle, and [UnmapViewOfFile] once
    exactly when, further, the view was mapped; otherwise it has not called
    them.  No run calls either of them twice, nor unmaps without closing. *)
Theorem mapping_released_once_unless_blocked
        (env : Env) (argv : list string) (st : Local)
        (others : list (Kernel -> Kernel)) (kern : Kernel) :
  let r := fst (run_main env argv st others kern) in
  let closes := List.length (filter closeb (calls r)) in
  let unmaps := List.length (filter unmapb (calls r)) in
  (val r = Blocked -> closes = 0%nat /\ unmaps = 0%nat) /\
  (val r <> Blocked ->
   (closes = 1%nat <-> is_speed argv /\ create_error env = None) /\
   (unmaps = 1%nat <-> is_speed argv /\ ~ setup_fails env)) /\
  (unmaps <= closes <= 1)%nat.
Proof.
  intros r closes unmaps. unfold closes, unmaps, r. clear r closes unmaps.
  destruct (is_speed_dec argv) as [Hsp|Hsp].
  - destruct (run_main_outcome env st others kern Hsp) as [kern1 Hout].
    destruct (@created_ok_no_error env kern1 _ eq_refl) as [Hcok Hcfail].
    revert Hout Hcok Hcfail.
    generalize (fst (run_main env argv st others kern)).
    generalize (fst (k_create (create_error env) kern1)).
    intros c r Hout Hcok Hcfail. unfold setup_fails.
    destruct (outcome_release Hout)
      as [([e He] & Hval & _ & Hcl & Hun & _)
         |[(Hok & [e He] & Hval & _ & Hcl & Hun & _)
          |[(Hok & [o Ho] & _ & _ & Hrel)|(Hok & [o Ho] & _ & _ & Hrel)]]];
      cbv zeta in *.
    + rewrite Hval, Hcl, Hun. cbn [List.length].
      specialize (Hcfail e He).
      split; [intros H; discriminate H|]. split; [|lia]. intros _.
      split; split;
        try (intros H; discriminate H);
        try (intros [_ H]; congruence).
      intros [_ H]. exfalso. apply H. left. congruence.
    + rewrite Hval, Hcl, Hun. cbn [List.length].
      specialize (Hcok Hok).
      split; [intros H; discriminate H|]. split; [|lia]. intros _.
      split; split; auto.
      * intros H; discriminate H.
      * intros [_ H]. exfalso. apply H. right. eauto.
    + specialize (Hcok Hok).
      destruct Hrel as [(Hval & Hcl & Hun)|(Hval & Hcl & Hun)];
        rewrite Hcl, Hun; cbn [List.length].
      * split; [intros H; contradiction|]. split; [|lia]. intros _.
        split; split; auto. intros _. split; [assumption|].
        intros [H|[e H]]; congruence.
      * split; [auto|]. split; [|lia]. intros H. contradiction.
    + specialize (Hcok Hok).
      destruct Hrel as [(Hval & Hcl & Hun)|(Hval & Hcl & Hun)];
        rewrite Hcl, Hun; cbn [List.length].
      * split; [intros H; contradiction|]. split; [|lia]. intros _.
        split; split; auto. intros _. split; [assumption|].
        intros [H|[e H]]; congruence.
      * split; [auto|]. split; [|lia]. intros H. contradiction.
  - unfold run_main. rewrite (main_usage env st Hsp).
    cbn [run_env fst calls val filter closeb unmapb usage_line List.length].
    split; [intros H; discriminate H|]. split; [|lia]. intros _.
    split; split; try (intros H; discriminate H); intros [H _]; contradiction.
Qed.

(** X8.  The role fixes what a process writes to the mapping.  The writes
    in a whole run of [main] are: for a process that announced the server
    role, its own id into [server_pid] and then zero into [client_pid]
    (lines 162-163), and nothing else; for one that was started with
    [speed], got past the set-up and did not announce the server role, its
    own id into [client_pid] (line 179) and nothing else; and none
    otherwise.  So only a server writes [server_pid], a server writes
    [client_pid] only to reset it to zero, and the polling loop and the
    rounds never write to the mapping. *)
Theorem writes_to_the_mapping_by_role
        (env : Env) (argv : list string) (st : Local)
        (others : list (Kernel -> Kernel)) (kern : Kernel) :
  let r := fst (run_main env argv st others kern) in
  let stores := filter storeb (calls r) in
  (ran_as_server env r /\
   stores = [Store F_server_pid (own_pid env); Store F_client_pid 0]) \/
  (~ ran_as_server env r /\ is_speed argv /\ ~ setup_fails env /\
   stores = [Store F_client_pid (own_pid env)]) \/
  (~ ran_as_server env r /\ (~ is_speed argv \/ setup_fails env) /\
   stores = []).
Proof.
  intros r stores. unfold stores, r. clear r stores.
  destruct (is_speed_dec argv) as [Hsp|Hsp].
  - destruct (run_main_outcome env st others kern Hsp) as [kern1 Hout].
    destruct (@created_ok_no_error env kern1 _ eq_refl) as [Hcok Hcfail].
    revert Hout Hcok Hcfail.
    generalize (fst (run_main env argv st others kern)).
    generalize (fst (k_create (create_error env) kern1)).
    intros c r Hout Hcok Hcfail. unfold setup_fails.
    destruct (outcome_release Hout)
      as [([e He] & _ & Hnot & _ & _ & Hst)
         |[(Hok & [e He] & _ & Hnot & _ & _ & Hst)
          |[(Hok & [o Ho] & Hran & Hst & _)|(Hok & [o Ho] & Hnot & Hst & _)]]];
      cbv zeta in *.
    + right; right. split; [assumption|]. split; [|assumption].
      right. left. rewrite (Hcfail e He). discriminate.
    + right; right. split; [assumption|]. split; [|assumption].
      right. right. eauto.
    + left. split; assumption.
    + right; left. split; [assumption|]. split; [assumption|].
      split; [|assumption]. specialize (Hcok Hok).
      intros [H|[e H]]; congruence.
  - right; right. unfold run_main. rewrite (main_usage env st Hsp).
    cbn [run_env fst calls filter storeb usage_line].
    split; [|split; [now left|reflexivity]].
    intros Hin. unfold ran_as_server in Hin. cbn in Hin.
    destruct Hin as [Hin|[]]. discriminate Hin.
Qed.

(** ** A server that nobody joins *)

Lemma polling_empty R n polls :
  polling R n polls ->
  (forall v, R F_client_pid v -> v = 0) ->
  polls = List.concat (List.repeat [Load F_client_pid 0; CallSleep 1] n).
Proof.
  intros Hp HR. induction Hp as [|n v Hv Hr|n polls Hr Hp IH].
  - reflexivity.
  - now apply HR in Hr.
  - cbn. now rewrite IH.
Qed.

(** X9.  A server that nobody joins polls exactly ten times.  When
    [client_pid] is zero at the start and no other process changes that,
    a run that announces the server role makes exactly these calls: the two
    set-up calls, the role line, the writes of its id and of zero, ten
    times a read of zero from [client_pid] followed by a sleep of one
    second, one more read of zero, the line that no client joined,
    [UnmapViewOfFile] and [CloseHandle]; and it returns [EXIT_FAILURE]. *)
Theorem server_alone_polls_ten_times
        (env : Env) (argv : list string) (st : Local)
        (others : list (Kernel -> Kernel)) (kern : Kernel) :
  let r := fst (run_main env argv st others kern) in
  no_client_yet kern ->
  Forall (stable no_client_yet) others ->
  ran_as_server env r ->
  exists c,
    created_ok c = true /\
    r = mkRes (setup_calls c ++
               [role_line true (own_pid env);
                Store F_server_pid (own_pid env); Store F_client_pid 0] ++
               ten_empty_polls ++
               [Load F_client_pid 0; no_client_line; CallUnmapViewOfFile;
                CallCloseHandle])
              (Returned EXIT_FAILURE)
              (mkLocal (waits st) (role_error env c)).
Proof.
  intros r Hk Ho Hran. unfold r in *. clear r.
  destruct (is_speed_dec argv) as [Hsp|Hsp].
  - set (kern1 := match others with [] => kern | g :: _ => g kern end).
    set (c := fst (k_create (create_error env) kern1)).
    set (I := fun k : Kernel =>
                role_error env c <> ERROR_ALREADY_EXISTS -> no_client_yet k).
    set (R := fun (f : Field) (v : DWORD) =>
                role_error env c <> ERROR_ALREADY_EXISTS ->
                f = F_client_pid -> v = 0).
    assert (Hk1 : no_client_yet kern1).
    { unfold kern1. destruct others as [|g others]; [assumption|].
      inversion Ho as [|? ? Hg _]. now apply Hg. }
    assert (Hout : main_outcome R env st c
                     (fst (run_main env argv st others kern))).
    { apply (@run_main_invariant I R env argv st others kern Hsp).
      - intros f k HIk Hne ->. apply HIk. exact Hne.
      - intros _ _. split; intros k HIk Hne.
        + apply HIk. exact Hne.
        + reflexivity.
      - intros _ Heq k _ Hne. contradiction.
      - destruct others as [|g others]; [constructor|].
        inversion Ho as [|? ? _ Hrest]. cbn [tl].
        eapply Forall_impl; [|exact Hrest].
        intros g' Hg' k HIk Hne. apply Hg'. apply HIk. exact Hne.
      - intros _. fold kern1. unfold k_create.
        destruct (create_error env); [exact Hk1|].
        destruct (mapping_exists kern1); [exact Hk1|reflexivity]. }
    revert Hran Hout.
    generalize (fst (run_main env argv st others kern)).
    intros r Hran Hout.
    pose proof (client_not_server Hout) as Hcl.
    inversion Hout as [e Hc|e Hok Hv|o polls Hok Hv Hne Hp H0
                       |o polls v Hok Hv Hne Hp HR Hnz|o v Hok Hv Heq HR].
    + exfalso. subst r. unfold ran_as_server in Hran. cbn in Hran.
      repeat (destruct Hran as [Hran|Hran]; try discriminate Hran).
      exact Hran.
    + exfalso. subst r. unfold ran_as_server in Hran. cbn in Hran.
      repeat (destruct Hran as [Hran|Hran]; try discriminate Hran).
      exact Hran.
    + exists c. split; [assumption|].
      rewrite (polling_empty Hp); [reflexivity|].
      intros w Hw. now apply Hw.
    + exfalso. apply Hnz. now apply HR.
    + exfalso. apply (Hcl Heq Hok); [|exact Hran].
      intros e He. congruence.
  - exfalso. unfold run_main in Hran. rewrite (main_usage env st Hsp) in Hran.
    unfold ran_as_server in Hran. cbn in Hran.
    destruct Hran as [Hran|[]]. discriminate Hran.
Qed.

Lemma server_alone_polls_ten_times_witness :
  let r := fst (run_main first_env speed_argv no_events [] no_mapping) in
  no_client_yet no_mapping /\
  Forall (stable no_client_yet) [] /\
  ran_as_server first_env r /\
  exists c,
    created_ok c = true /\
    r = mkRes (setup_calls c ++
               [role_line true (own_pid first_env);
                Store F_server_pid (own_pid first_env); Store F_client_pid 0] ++
               ten_empty_polls ++
               [Load F_client_pid 0; no_client_line; CallUnmapViewOfFile;
                CallCloseHandle])
              (Returned EXIT_FAILURE)
              (mkLocal (waits no_events) (role_error first_env c)).
Proof.
  intros r.
  assert (Hran : ran_as_server first_env r).
  { unfold ran_as_server. vm_compute. do 2 right. left. reflexivity. }
  split; [reflexivity|]. split; [constructor|]. split; [exact Hran|].
  exact (@server_alone_polls_ten_times first_env speed_argv no_events []
           no_mapping eq_refl (Forall_nil _) Hran).
Defined.
